(** * A polled 16550 UART driver (drivers/serial/uart.c), embedded in Rocq

    The driver talks to the controller through volatile byte loads and
    stores at [UART0 + reg].  The embedding keeps that interface: a
    machine carries, for every bus address, the answers the device will give
    to the next loads at that address, the list of accesses performed so
    far, and ordinary memory for the caller's line buffer.  Quantifying over
    the answers quantifies over every behaviour of the hardware. *)

From stdpp Require Import base numbers list gmap.

Local Open Scope Z_scope.

(** ** Fixed-width values *)

(** Conversion to [uint8_t]: the low eight bits. *)
Definition u8 (v : Z) : Z := v `mod` 2 ^ 8.

(** Conversion to [uint64_t]. *)
Definition u64 (v : Z) : Z := v `mod` 2 ^ 64.

(** ** Machine state *)

(** One access on the bus, with the byte that was transferred. *)
Inductive access : Type :=
  | Load (addr val : Z)
  | Store (addr val : Z).

Record machine : Type := Machine {
  answers : gmap Z (list Z); (* per address: what the next loads will return *)
  trace : list access;       (* accesses so far, oldest first *)
  ram : gmap Z Z             (* ordinary memory, written by [uart_gets] *)
}.

(** The answers still pending at address [a]. *)
Definition queue (m : machine) (a : Z) : list Z := default [] (answers m !! a).

(** A call either returns, or is still waiting on the device when the
    answers run out; the machine reached is kept in both cases, so that
    what a blocked call has done so far remains visible. *)
Inductive outcome (A : Type) : Type :=
  | Done (a : A) (m : machine)
  | Pending (m : machine).
Global Arguments Done {A} a m.
Global Arguments Pending {A} m.

Definition M (A : Type) : Type := machine → outcome A.

Global Instance M_ret : MRet M := λ A a m, Done a m.
Global Instance M_bind : MBind M := λ A B f c m,
  match c m with
  | Done a m' => f a m'
  | Pending m' => Pending m'
  end.

Definition final {A} (o : outcome A) : machine :=
  match o with Done _ m => m | Pending m => m end.

(** Loop control of [uart_gets]: the cursor [t] after an iteration, and
    whether the iteration ended in [break]. *)
Inductive flow : Type :=
  | Continue (t : Z)
  | Break (t : Z).

(** ** Register map and status bits (the #define lines of uart.c) *)

Definition RHR : Z := 0.
Definition THR : Z := 0.
Definition DLL : Z := 0.
Definition IER : Z := 1.
Definition DLM : Z := 1.
Definition ISR : Z := 2.
Definition FCR : Z := 2.
Definition LCR : Z := 3.
Definition MCR : Z := 4.
Definition LSR : Z := 5.
Definition MSR : Z := 6.
Definition SPR : Z := 7.

Definition LSR_RX_READY : Z := Z.shiftl 1 0.
Definition LSR_TX_IDLE : Z := Z.shiftl 1 5.

(** Character constants used by [uart_gets]. *)
Definition CR : Z := 13.   (* '\r' *)
Definition LF : Z := 10.   (* '\n' *)
Definition BS : Z := 8.    (* '\b' *)
Definition DEL : Z := 127. (* 0x7f *)
Definition SP : Z := 32.   (* ' ' *)
Definition NUL : Z := 0.   (* '\0' *)

Section Driver.

(** The base address of the register window comes from platform.h, which
    is not part of the driver: it stays a parameter. *)
Variable UART0 : Z.

Definition UART_REG (reg : Z) : Z := UART0 + reg.

(** [*(UART_REG(reg))]: one volatile byte load.  The device's next answer
    at that address is consumed and logged. *)
Definition uart_read_reg (reg : Z) : M Z := λ m,
  match queue m (UART_REG reg) with
  | v :: vs =>
      Done (u8 v)
           (Machine (<[UART_REG reg := vs]> (answers m))
                    (trace m ++ [Load (UART_REG reg) (u8 v)])
                    (ram m))
  | [] => Pending m
  end.

(** [*(UART_REG(reg)) = v]: one volatile byte store; [v] is converted to
    [uint8_t]. *)
Definition uart_write_reg (reg v : Z) : M () := λ m,
  Done () (Machine (answers m) (trace m ++ [Store (UART_REG reg) (u8 v)]) (ram m)).

(** [*t = v] on ordinary memory: the caller's buffer lies outside the
    register window, so the store is not a bus access. *)
Definition poke (t v : Z) : M () := λ m,
  Done () (Machine (answers m) (trace m) (<[t := v]> (ram m))).

Definition uart_init : M () :=
  uart_write_reg IER 0;;
  lcr ← uart_read_reg LCR;
  uart_write_reg LCR (Z.lor lcr (Z.shiftl 1 7));;
  uart_write_reg DLL 3;;
  uart_write_reg DLM 0;;
  let lcr := 0 in
  uart_write_reg LCR (Z.lor lcr (Z.shiftl 3 0));;
  ier ← uart_read_reg IER;
  uart_write_reg IER (Z.lor ier (Z.shiftl 1 0)).

(** [while ((uart_read_reg(reg) & mask) == 0);] unrolled at most [n]
    times. *)
Fixpoint spin (n : nat) (reg mask : Z) : M () :=
  match n with
  | O => λ m, Pending m
  | S n' =>
      v ← uart_read_reg reg;
      if Z.land v mask =? 0 then spin n' reg mask else mret ()
  end.

(** The busy-wait loop itself.  Every iteration consumes one answer of the
    device, so the number of answers left bounds the iterations that can
    complete ([busy_wait_unfold] below is the loop equation). *)
Definition busy_wait (reg mask : Z) : M () := λ m,
  spin (length (queue m (UART_REG reg))) reg mask m.

Definition uart_putc (ch : Z) : M () :=
  busy_wait LSR LSR_TX_IDLE;;
  uart_write_reg THR ch.

(** [s] is the sequence of bytes found from the pointer on; bytes past the
    end of the list are not described, and the run is cut there. *)
Fixpoint uart_puts (s : list Z) : M () :=
  match s with
  | [] => λ m, Pending m
  | c :: s' => if c =? 0 then mret () else uart_putc c;; uart_puts s'
  end.

(** The value returned is a [char]; it is kept as the byte loaded.  The
    driver only compares characters with '\r', '\b' and 0x7f and converts
    them back to [uint8_t] when it sends them, and both agree for a signed
    and an unsigned [char]. *)
Definition uart_getc : M Z :=
  busy_wait LSR LSR_RX_READY;;
  uart_read_reg RHR.

(** The if / else-if / else chain of the loop body, for the character [ch]
    just received, buffer start [s] and cursor [t]. *)
Definition gets_branch (s t ch : Z) : M flow :=
  if ch =? CR then
    uart_putc CR;;
    uart_putc LF;;
    poke t NUL;;
    mret (Break t)
  else if (ch =? BS) || (ch =? DEL) then
    if t >? s then
      uart_puts [BS; SP; BS; NUL];;
      mret (Continue (t - 1))
    else mret (Continue t)
  else
    uart_putc ch;;
    poke t ch;;
    mret (Continue (t + 1)).

(** One iteration of [while (1)]. *)
Definition gets_iter (s t : Z) : M flow :=
  ch ← uart_getc;
  gets_branch s t ch.

(** [while (1) { ... }] unrolled at most [n] times; the result is the
    cursor at [break]. *)
Fixpoint gets_loop (n : nat) (s t : Z) : M Z :=
  match n with
  | O => λ m, Pending m
  | S n' =>
      f ← gets_iter s t;
      match f with
      | Continue t' => gets_loop n' s t'
      | Break t' => mret t'
      end
  end.

(** Every completed iteration consumes one received byte, so one more than
    the number of bytes the device will deliver never cuts the loop short
    ([gets_while_unfold] below is the loop equation). *)
Definition gets_while (s t : Z) : M Z := λ m,
  gets_loop (S (length (queue m (UART_REG RHR)))) s t m.

(** [s] and [t] are addresses; the value returned is [t - s] converted to
    [uint64_t]. *)
Definition uart_gets (s : Z) : M Z :=
  t ← gets_while s s;
  mret (u64 (t - s)).

(** ** Reading a trace *)

(** The bytes loaded from, and stored to, address [a] along a trace. *)
Definition loads_at (a : Z) (tr : list access) : list Z :=
  flat_map (λ e, match e with
                 | Load b v => if decide (b = a) then [v] else []
                 | Store _ _ => []
                 end) tr.

Definition stores_at (a : Z) (tr : list access) : list Z :=
  flat_map (λ e, match e with
                 | Store b v => if decide (b = a) then [v] else []
                 | Load _ _ => []
                 end) tr.

(** The loads of [reg] that return the answers [vs], in order. *)
Definition polls (reg : Z) (vs : list Z) : list access :=
  map (λ v, Load (UART_REG reg) (u8 v)) vs.

(** The status answers left once a wait on [mask] has seen a ready answer;
    [None] when no pending answer has a bit of [mask] set. *)
Fixpoint ready_after (mask : Z) (q : list Z) : option (list Z) :=
  match q with
  | [] => None
  | v :: q' => if Z.land (u8 v) mask =? 0 then ready_after mask q' else Some q'
  end.

(** Spec wording of put_string: put_byte on every character before the
    sentinel, in order, and nothing else. *)
Fixpoint put_each (cs : list Z) : M () :=
  match cs with
  | [] => mret ()
  | c :: cs' => uart_putc c;; put_each cs'
  end.

(** [serve masks q]: the status answers left after one wait per mask, in
    order; [None] when one of the waits finds no ready answer. *)
Fixpoint serve (masks : list Z) (q : list Z) : option (list Z) :=
  match masks with
  | [] => Some q
  | k :: ks =>
      match ready_after k q with
      | Some q' => serve ks q'
      | None => None
      end
  end.

(** *** Line editing, in the spec's words

    [acc] is the line typed so far, oldest character first. *)

Definition erases (k : Z) : bool := (k =? BS) || (k =? DEL).

(** The line after the key [k]: an erasing key drops the last character
    (nothing on an empty line), a carriage return leaves the line as it is,
    any other key is appended. *)
Definition key_line (acc : list Z) (k : Z) : list Z :=
  if k =? CR then acc
  else if erases k then removelast acc
  else acc ++ [k].

(** What the key [k] echoes. *)
Definition key_echo (acc : list Z) (k : Z) : list Z :=
  if k =? CR then [CR; LF]
  else if erases k then match acc with [] => [] | _ => [BS; SP; BS] end
  else [k].

Definition line_of (acc keys : list Z) : list Z := fold_left key_line keys acc.

Fixpoint echo_of (acc keys : list Z) : list Z :=
  match keys with
  | [] => []
  | k :: ks => key_echo acc k ++ echo_of (key_line acc k) ks
  end.

(** The waits a run over [keys] goes through: receive-ready before each
    key, transmit-idle before each echoed byte. *)
Fixpoint waits_of (acc keys : list Z) : list Z :=
  match keys with
  | [] => []
  | k :: ks =>
      LSR_RX_READY :: replicate (length (key_echo acc k)) LSR_TX_IDLE
        ++ waits_of (key_line acc k) ks
  end.

(** Counting, as the cursor invariant is worded: the keys that store a
    character, and the erasing keys that found a character to erase. *)
Definition ordinary (k : Z) : bool := negb (k =? CR) && negb (erases k).

Definition stored_count (keys : list Z) : nat := length (List.filter ordinary keys).

Fixpoint erased_count (acc keys : list Z) : nat :=
  match keys with
  | [] => 0
  | k :: ks =>
      ((if erases k then match acc with [] => 0 | _ => 1 end else 0)
       + erased_count (key_line acc k) ks)%nat
  end.

(** The buffer at [s] starts with the characters [l]. *)
Definition holds (r : gmap Z Z) (s : Z) (l : list Z) : Prop :=
  ∀ (i : nat) x, l !! i = Some x → r !! (s + Z.of_nat i) = Some x.

(** *** Loop prefixes and call sequences *)

Definition cursor (f : flow) : Z :=
  match f with Continue t => t | Break t => t end.

(** The first [i] iterations of the loop of [uart_gets] (fewer if the loop
    breaks before): the cursor they reach. *)
Fixpoint gets_steps (i : nat) (s t : Z) : M flow :=
  match i with
  | O => mret (Continue t)
  | S i' =>
      f ← gets_iter s t;
      match f with
      | Continue t' => gets_steps i' s t'
      | Break t' => mret (Break t')
      end
  end.

(** A call of one of the transfer operations, and a caller making any
    sequence of them. *)
Inductive call : Type :=
  | Putc (ch : Z)
  | Puts (str : list Z)
  | Getc
  | Gets (buf : Z).

Definition run_call (c : call) : M () :=
  match c with
  | Putc ch => uart_putc ch
  | Puts str => uart_puts str
  | Getc => uart_getc;; mret ()
  | Gets buf => uart_gets buf;; mret ()
  end.

Fixpoint run_calls (cs : list call) : M () :=
  match cs with
  | [] => mret ()
  | c :: cs' => run_call c;; run_calls cs'
  end.

(** *** The Line Control register

    The controller keeps in Line Control the last byte stored at offset 3
    (reference [1] of uart.c); bit 7 of it is the Divisor Latch Access Bit,
    which decides what offsets 0 and 1 address. *)
Definition lcr_step (lcr : Z) (e : access) : Z :=
  match e with
  | Store a v => if decide (a = UART_REG LCR) then v else lcr
  | Load _ _ => lcr
  end.

Definition lcr_after (tr : list access) (lcr0 : Z) : Z := fold_left lcr_step tr lcr0.

Definition DLAB (lcr : Z) : bool := Z.testbit lcr 7.

(** *** Typing DEL for backspace *)

Definition bs_for_del (k : Z) : Z := if k =? DEL then BS else k.

(** The machine [m] with every 0x7f among the bytes to be received
    replaced by a backspace. *)
Definition retype (m : machine) : machine :=
  Machine (<[UART_REG RHR := map bs_for_del (queue m (UART_REG RHR))]> (answers m))
          (trace m) (ram m).

(** What a caller and a terminal see of a run of [uart_gets]: the value
    returned, the memory, and the bytes sent. *)
Definition observe (o : outcome Z) : option Z * gmap Z Z * list Z :=
  (match o with Done r _ => Some r | Pending _ => None end,
   ram (final o),
   stores_at (UART_REG THR) (trace (final o))).

(** [keeps R c]: whatever the machine, and whether [c] returns or not, the
    machine that [c] reaches is related by [R] to the one it started from. *)
Definition keeps {A} (R : machine → machine → Prop) (c : M A) : Prop :=
  ∀ m, R m (final (c m)).

(** The accesses of the transfer operations: loads of Line Status and of
    the receive holding register, stores to the transmit holding
    register. *)
Definition transfer_access (e : access) : Prop :=
  match e with
  | Load a _ => a = UART_REG LSR ∨ a = UART_REG RHR
  | Store a _ => a = UART_REG THR
  end.

(** [m'] is [m] after more accesses, all of them satisfying [P]. *)
Definition extends_by (P : access → Prop) (m m' : machine) : Prop :=
  ∃ tr, trace m' = trace m ++ tr ∧ Forall P tr.

(** The answers pending at address [a] are the same in [m'] as in [m]. *)
Definition same_queue (a : Z) (m m' : machine) : Prop := queue m' a = queue m a.

(** From [m] to [m'] the bytes [rxs] were received and the bytes [txs]
    sent, leaving the status answers [lsr], the bytes [rx] still to be
    received and the memory [r]. *)
Definition reaches (m m' : machine) (rxs txs lsr rx : list Z) (r : gmap Z Z) : Prop :=
  (∃ tr, trace m' = trace m ++ tr ∧
         loads_at (UART_REG RHR) tr = rxs ∧
         stores_at (UART_REG THR) tr = txs) ∧
  queue m' (UART_REG LSR) = lsr ∧
  queue m' (UART_REG RHR) = rx ∧
  ram m' = r.

(** The accesses of the transmit side alone. *)
Definition send_access (e : access) : Prop :=
  match e with
  | Load a _ => a = UART_REG LSR
  | Store a _ => a = UART_REG THR
  end.

(** Two characters that differ at most by DEL having become backspace. *)
Definition retyped_key (c1 c2 : Z) : Prop := c2 = c1 ∨ (c1 = DEL ∧ c2 = BS).

(** [m2] is [m1] as far as a caller and a terminal can tell, with the DELs
    among the bytes to be received typed as backspaces. *)
Definition retyped (m1 m2 : machine) : Prop :=
  queue m2 (UART_REG RHR) = map bs_for_del (queue m1 (UART_REG RHR)) ∧
  (∀ a, a ≠ UART_REG RHR → queue m2 a = queue m1 a) ∧
  stores_at (UART_REG THR) (trace m2) = stores_at (UART_REG THR) (trace m1) ∧
  ram m2 = ram m1.

Definition retyped_out {A} (rel : A → A → Prop) (o1 o2 : outcome A) : Prop :=
  match o1, o2 with
  | Done a1 m1, Done a2 m2 => rel a1 a2 ∧ retyped m1 m2
  | Pending m1, Pending m2 => retyped m1 m2
  | _, _ => False
  end.

(** Memory below the address [s] is the same in [m'] as in [m]. *)
Definition same_below (s : Z) (m m' : machine) : Prop :=
  ∀ a, a < s → ram m' !! a = ram m !! a.

(** *** A console to run the driver on

    The base address of the UART on QEMU's virt board, which the comments
    of uart.c name as the target, and a machine whose device will answer
    [lsr] to the loads of Line Status, [rx] to those of the receive holding
    register, and 0 once to a load of Line Control and of Interrupt
    Enable. *)
Definition virt_uart0 : Z := 268435456.

Definition console (lsr rx : list Z) : machine :=
  Machine (<[virt_uart0 + 5 := lsr]>
             (<[virt_uart0 + 0 := rx]>
                (<[virt_uart0 + 3 := [0]]>
                   (<[virt_uart0 + 1 := [0]]> ∅))))
          [] ∅.

(** *** The register window

    What the stores of a trace do to the controller, after the register map
    in the comments of uart.c: offset 3 is Line Control; while bit 7 of Line
    Control (DLAB) is set, offsets 0 and 1 are the two bytes of the divisor
    latch (DLL, DLM); while it is clear, a store at offset 0 puts a byte in
    the transmit holding register (THR) and a store at offset 1 sets
    Interrupt Enable (IER).  [w_sent] lists the bytes put in THR, oldest
    first.  The other offsets are not stored to by the driver and are not
    tracked. *)
Record window : Type := Window {
  w_lcr : Z;
  w_dll : Z;
  w_dlm : Z;
  w_ier : Z;
  w_sent : list Z
}.

Definition window_store (w : window) (off v : Z) : window :=
  if off =? 0 then
    if DLAB (w_lcr w)
    then Window (w_lcr w) v (w_dlm w) (w_ier w) (w_sent w)
    else Window (w_lcr w) (w_dll w) (w_dlm w) (w_ier w) (w_sent w ++ [v])
  else if off =? 1 then
    if DLAB (w_lcr w)
    then Window (w_lcr w) (w_dll w) v (w_ier w) (w_sent w)
    else Window (w_lcr w) (w_dll w) (w_dlm w) v (w_sent w)
  else if off =? 3 then Window v (w_dll w) (w_dlm w) (w_ier w) (w_sent w)
  else w.

Definition window_step (w : window) (e : access) : window :=
  match e with
  | Store a v => window_store w (a - UART0) v
  | Load _ _ => w
  end.

Definition window_after (tr : list access) (w : window) : window :=
  fold_left window_step tr w.

(** *** What a call has done, whether it returned or not *)

(** From [m] to [m'] the bytes [rxs] were loaded from the receive holding
    register and the bytes [txs] stored to the transmit holding register. *)
Definition transfers (m m' : machine) (rxs txs : list Z) : Prop :=
  ∃ tr, trace m' = trace m ++ tr ∧
        loads_at (UART_REG RHR) tr = rxs ∧
        stores_at (UART_REG THR) tr = txs.

(** From [m] to [m'] the bytes [txs] were sent and nothing else happened:
    no byte was received, memory and the bytes still to be received are as
    they were. *)
Definition sent (m m' : machine) (txs : list Z) : Prop :=
  transfers m m' [] txs ∧
  ram m' = ram m ∧
  queue m' (UART_REG RHR) = queue m (UART_REG RHR).

(** The cursor move and the memory after the key [k], typed on the line
    [acc] held at [s]. *)
Definition key_flow (s : Z) (acc : list Z) (k : Z) : flow :=
  if k =? CR then Break (s + Z.of_nat (length acc))
  else Continue (s + Z.of_nat (length (key_line acc k))).

Definition key_ram (s : Z) (acc : list Z) (k : Z) (r : gmap Z Z) : gmap Z Z :=
  if k =? CR then <[s + Z.of_nat (length acc) := NUL]> r
  else if erases k then r
  else <[s + Z.of_nat (length acc) := k]> r.

(** ** Basic facts *)

Lemma u8_range v : 0 ≤ u8 v < 256.
Proof. unfold u8. change (2 ^ 8) with 256. apply Z.mod_pos_bound. lia. Qed.

Lemma u8_small v : 0 ≤ v < 256 → u8 v = v.
Proof. intros H. unfold u8. change (2 ^ 8) with 256. by apply Z.mod_small. Qed.

Lemma u8_idemp v : u8 (u8 v) = u8 v.
Proof. apply u8_small, u8_range. Qed.

Lemma u8_testbit v i : Z.testbit (u8 v) i = (i <? 8) && Z.testbit v i.
Proof. unfold u8. apply Z.testbit_mod_pow2. lia. Qed.

Lemma u8_lor a b : u8 (Z.lor a b) = Z.lor (u8 a) (u8 b).
Proof.
  apply Z.bits_inj'. intros i _.
  rewrite Z.lor_spec, !u8_testbit, Z.lor_spec.
  by destruct (i <? 8), (Z.testbit a i), (Z.testbit b i).
Qed.

Lemma queue_insert_eq ans tr r a l : queue (Machine (<[a := l]> ans) tr r) a = l.
Proof. unfold queue; simpl. by rewrite lookup_insert_eq. Qed.

Lemma queue_insert_ne ans tr r a b l :
  a ≠ b → queue (Machine (<[a := l]> ans) tr r) b = default [] (ans !! b).
Proof. intros H. unfold queue; simpl. by rewrite lookup_insert_ne. Qed.

Lemma uart_read_reg_cons reg m v vs :
  queue m (UART_REG reg) = v :: vs →
  uart_read_reg reg m =
    Done (u8 v) (Machine (<[UART_REG reg := vs]> (answers m))
                         (trace m ++ [Load (UART_REG reg) (u8 v)]) (ram m)).
Proof. intros H. unfold uart_read_reg. by rewrite H. Qed.

Lemma uart_read_reg_nil reg m :
  queue m (UART_REG reg) = [] → uart_read_reg reg m = Pending m.
Proof. intros H. unfold uart_read_reg. by rewrite H. Qed.

Lemma loads_at_app a tr1 tr2 :
  loads_at a (tr1 ++ tr2) = loads_at a tr1 ++ loads_at a tr2.
Proof. apply flat_map_app. Qed.

Lemma stores_at_app a tr1 tr2 :
  stores_at a (tr1 ++ tr2) = stores_at a tr1 ++ stores_at a tr2.
Proof. apply flat_map_app. Qed.

Lemma loads_at_polls_ne reg a vs :
  UART_REG reg ≠ a → loads_at a (polls reg vs) = [].
Proof.
  intros Hne. induction vs as [|v vs IH]; [done|].
  simpl. by rewrite decide_False by done.
Qed.

Lemma stores_at_polls reg a vs : stores_at a (polls reg vs) = [].
Proof. by induction vs. Qed.

(** ** Initialisation *)

(** C1: [uart_init] performs exactly eight accesses, in the order of the
    source: IER := 0; read LCR; LCR := value read | 0x80; DLL := 3;
    DLM := 0; LCR := 3; read IER; IER := value read | 1.  It touches
    nothing else, the byte written last to IER has bit 0 set and agrees
    with the byte read just before on every other bit. *)
Theorem uart_init_sequence (m : machine) (v1 v2 : Z) (r1 r2 : list Z) :
  queue m (UART_REG LCR) = v1 :: r1 →
  queue m (UART_REG IER) = v2 :: r2 →
  ∃ m',
    uart_init m = Done () m' ∧
    trace m' = trace m ++
      [ Store (UART_REG IER) 0;
        Load (UART_REG LCR) (u8 v1);
        Store (UART_REG LCR) (Z.lor (u8 v1) 128);
        Store (UART_REG DLL) 3;
        Store (UART_REG DLM) 0;
        Store (UART_REG LCR) 3;
        Load (UART_REG IER) (u8 v2);
        Store (UART_REG IER) (Z.lor (u8 v2) 1) ] ∧
    ram m' = ram m ∧
    queue m' (UART_REG LCR) = r1 ∧
    queue m' (UART_REG IER) = r2 ∧
    Z.testbit (Z.lor (u8 v2) 1) 0 = true ∧
    ∀ i, i ≠ 0 → Z.testbit (Z.lor (u8 v2) 1) i = Z.testbit (u8 v2) i.
Proof.
  intros H1 H2.
  assert (Hne : UART_REG LCR ≠ UART_REG IER) by (unfold UART_REG, LCR, IER; lia).
  unfold uart_init, mbind, M_bind. simpl.
  rewrite (uart_read_reg_cons LCR _ v1 r1) by exact H1. simpl.
  rewrite (uart_read_reg_cons IER _ v2 r2)
    by (rewrite queue_insert_ne by done; exact H2).
  simpl. eexists. split; [reflexivity|]. simpl.
  repeat split.
  - rewrite <- !(assoc_L (++)). simpl.
    change (1 ≪ 7) with 128. change (3 ≪ 0) with 3. change (1 ≪ 0) with 1.
    rewrite !u8_lor, !u8_idemp. simpl (Z.lor 0 3).
    by rewrite (u8_small 0), (u8_small 128), (u8_small 3), (u8_small 1) by lia.
  - unfold queue; simpl.
    rewrite lookup_insert_ne by done. by rewrite lookup_insert_eq.
  - apply queue_insert_eq.
  - rewrite <- Z.bit0_odd, Z.lor_spec. by rewrite orb_true_r.
  - intros i Hi. rewrite Z.lor_spec.
    replace (Z.testbit 1 i) with false; [by rewrite orb_false_r|].
    symmetry. destruct (decide (i < 0)).
    + by apply Z.testbit_neg_r.
    + apply (Z.bits_above_log2 1 i); simpl; lia.
Qed.

(** ** Busy waiting *)

(** Testing a status byte against a one-bit mask is testing that bit. *)
Lemma land_bit v k : 0 ≤ k → Z.land v (1 ≪ k) = 0 ↔ Z.testbit v k = false.
Proof.
  intros Hk. rewrite Z.shiftl_1_l. split.
  - intros H. apply (f_equal (λ x, Z.testbit x k)) in H.
    rewrite Z.land_spec, Z.pow2_bits_true, Z.bits_0 in H by done.
    by rewrite andb_true_r in H.
  - intros H. apply Z.bits_inj'. intros i Hi.
    rewrite Z.land_spec, Z.bits_0.
    destruct (decide (i = k)) as [->|Hne].
    + by rewrite H.
    + by rewrite Z.pow2_bits_false, andb_false_r by done.
Qed.

Lemma busy_wait_unfold reg mask m :
  busy_wait reg mask m =
    (v ← uart_read_reg reg;
     if Z.land v mask =? 0 then busy_wait reg mask else mret ()) m.
Proof.
  unfold busy_wait, mbind, M_bind.
  destruct (queue m (UART_REG reg)) as [|v vs] eqn:Hq; simpl.
  - by rewrite uart_read_reg_nil.
  - unfold mbind, M_bind. rewrite (uart_read_reg_cons _ _ _ _ Hq).
    destruct (Z.land (u8 v) mask =? 0); [|done].
    by rewrite queue_insert_eq.
Qed.

Lemma busy_wait_ready reg mask ws v rest : ∀ m,
  queue m (UART_REG reg) = ws ++ v :: rest →
  Forall (λ w, Z.land (u8 w) mask = 0) ws →
  Z.land (u8 v) mask ≠ 0 →
  busy_wait reg mask m =
    Done () (Machine (<[UART_REG reg := rest]> (answers m))
                     (trace m ++ polls reg (ws ++ [v])) (ram m)).
Proof.
  induction ws as [|w ws IH]; intros m Hq Hws Hv;
    rewrite busy_wait_unfold; unfold mbind, M_bind;
    rewrite (uart_read_reg_cons _ _ _ _ Hq).
  - by rewrite (proj2 (Z.eqb_neq _ _) Hv).
  - inversion_clear Hws as [|?? Hw Hws']. rewrite Hw. simpl.
    rewrite (IH _ (queue_insert_eq _ _ _ _ _) Hws' Hv). simpl.
    by rewrite insert_insert_eq, <- (assoc_L (++)).
Qed.

Lemma busy_wait_stuck reg mask q : ∀ m,
  queue m (UART_REG reg) = q →
  Forall (λ w, Z.land (u8 w) mask = 0) q →
  ∃ m', busy_wait reg mask m = Pending m' ∧
        trace m' = trace m ++ polls reg q ∧
        ram m' = ram m ∧
        queue m' (UART_REG reg) = [].
Proof.
  induction q as [|w q IH]; intros m Hq Hall;
    rewrite busy_wait_unfold; unfold mbind, M_bind.
  - rewrite (uart_read_reg_nil _ _ Hq). exists m.
    simpl. by rewrite (right_id_L [] (++)).
  - rewrite (uart_read_reg_cons _ _ _ _ Hq).
    inversion_clear Hall as [|?? Hw Hall']. rewrite Hw. simpl.
    lazymatch goal with
    | |- context [busy_wait reg mask ?m1] =>
        destruct (IH m1 (queue_insert_eq _ _ _ _ _) Hall')
          as (m' & -> & Htr & Hram & Hq')
    end.
    exists m'. repeat split; [|done..].
    rewrite Htr. simpl. by rewrite <- (assoc_L (++)).
Qed.

Lemma ready_after_split mask q rest :
  ready_after mask q = Some rest →
  ∃ ws v, q = ws ++ v :: rest ∧
          Forall (λ w, Z.land (u8 w) mask = 0) ws ∧
          Z.land (u8 v) mask ≠ 0.
Proof.
  revert rest. induction q as [|w q IH]; intros rest H; [done|].
  simpl in H. destruct (Z.land (u8 w) mask =? 0) eqn:Hw.
  - destruct (IH _ H) as (ws & v & -> & Hws & Hv).
    exists (w :: ws), v. split; [done|]. split; [|done].
    constructor; [by apply Z.eqb_eq|done].
  - injection H as <-. exists [], w. split; [done|].
    split; [constructor|by apply Z.eqb_neq].
Qed.

(** ** Byte transfer *)

(** C4: [uart_putc] stores to the data register only after a load of Line
    Status with bit 5 set.  If the status answers are [ws], all with bit 5
    clear, followed by [v] with bit 5 set, the call polls exactly those,
    then stores the byte [ch] once and returns.  If no answer has bit 5
    set, the call is still polling when the answers end and has stored
    nothing. *)
Theorem uart_putc_waits_for_tx_idle (ch : Z) (m : machine) :
  (∀ ws v rest,
     queue m (UART_REG LSR) = ws ++ v :: rest →
     Forall (λ w, Z.testbit (u8 w) 5 = false) ws →
     Z.testbit (u8 v) 5 = true →
     ∃ m', uart_putc ch m = Done () m' ∧
           trace m' = trace m ++ polls LSR ws ++
                        [Load (UART_REG LSR) (u8 v); Store (UART_REG THR) (u8 ch)] ∧
           queue m' (UART_REG LSR) = rest ∧
           ram m' = ram m) ∧
  (Forall (λ w, Z.testbit (u8 w) 5 = false) (queue m (UART_REG LSR)) →
     ∃ m', uart_putc ch m = Pending m' ∧
           trace m' = trace m ++ polls LSR (queue m (UART_REG LSR)) ∧
           ram m' = ram m).
Proof.
  split.
  - intros ws v rest Hq Hws Hv. unfold uart_putc, mbind, M_bind.
    rewrite (busy_wait_ready LSR LSR_TX_IDLE ws v rest m Hq).
    + eexists. split; [reflexivity|]. simpl.
      split; [|split; [apply queue_insert_eq|done]].
      unfold polls. by rewrite map_app, <- !(assoc_L (++)).
    + eapply Forall_impl; [exact Hws|]. intros w Hw. by apply (land_bit _ 5).
    + intros H. apply (land_bit _ 5) in H; [congruence|done].
  - intros Hall. unfold uart_putc, mbind, M_bind.
    destruct (busy_wait_stuck LSR LSR_TX_IDLE _ m eq_refl) as (m' & -> & Htr & Hram & _).
    + eapply Forall_impl; [exact Hall|]. intros w Hw. by apply (land_bit _ 5).
    + by exists m'.
Qed.

(** C5: [uart_getc] loads the data register only after a load of Line
    Status with bit 0 set.  If the status answers are [ws], all with bit 0
    clear, followed by [v] with bit 0 set, the call polls exactly those,
    then loads the data register once and returns the byte loaded.  If no
    answer has bit 0 set, the call is still polling when the answers end and
    has not loaded the data register. *)
Theorem uart_getc_waits_for_rx_ready (m : machine) :
  (∀ ws v rest b more,
     queue m (UART_REG LSR) = ws ++ v :: rest →
     Forall (λ w, Z.testbit (u8 w) 0 = false) ws →
     Z.testbit (u8 v) 0 = true →
     queue m (UART_REG RHR) = b :: more →
     ∃ m', uart_getc m = Done (u8 b) m' ∧
           trace m' = trace m ++ polls LSR ws ++
                        [Load (UART_REG LSR) (u8 v); Load (UART_REG RHR) (u8 b)] ∧
           queue m' (UART_REG LSR) = rest ∧
           queue m' (UART_REG RHR) = more ∧
           ram m' = ram m) ∧
  (Forall (λ w, Z.testbit (u8 w) 0 = false) (queue m (UART_REG LSR)) →
     ∃ m', uart_getc m = Pending m' ∧
           trace m' = trace m ++ polls LSR (queue m (UART_REG LSR)) ∧
           loads_at (UART_REG RHR) (polls LSR (queue m (UART_REG LSR))) = [] ∧
           ram m' = ram m).
Proof.
  assert (Hne : UART_REG LSR ≠ UART_REG RHR) by (unfold UART_REG, LSR, RHR; lia).
  split.
  - intros ws v rest b more Hq Hws Hv Hb. unfold uart_getc, mbind, M_bind.
    rewrite (busy_wait_ready LSR LSR_RX_READY ws v rest m Hq).
    + rewrite (uart_read_reg_cons RHR _ b more)
        by (rewrite queue_insert_ne by done; exact Hb).
      eexists. split; [reflexivity|]. simpl.
      split; [|split; [|split; [apply queue_insert_eq|done]]].
      * unfold polls. by rewrite map_app, <- !(assoc_L (++)).
      * unfold queue; simpl.
        rewrite lookup_insert_ne by done. by rewrite lookup_insert_eq.
    + eapply Forall_impl; [exact Hws|]. intros w Hw. by apply (land_bit _ 0).
    + intros H. apply (land_bit _ 0) in H; [congruence|done].
  - intros Hall. unfold uart_getc, mbind, M_bind.
    destruct (busy_wait_stuck LSR LSR_RX_READY _ m eq_refl) as (m' & -> & Htr & Hram & _).
    + eapply Forall_impl; [exact Hall|]. intros w Hw. by apply (land_bit _ 0).
    + exists m'. repeat split; [done| |done].
      by apply loads_at_polls_ne.
Qed.

(** C7: on a null-terminated sequence, [uart_puts] is [uart_putc] on each
    character before the terminator, in order, and nothing else: the two
    give the same outcome on every machine, whatever follows the
    terminator.  In particular on [65; 66; 0] it is [uart_putc 65]
    followed by [uart_putc 66]. *)
Theorem uart_puts_is_put_each (cs junk : list Z) (m : machine) :
  Forall (λ c, c ≠ 0) cs →
  uart_puts (cs ++ 0 :: junk) m = put_each cs m ∧
  uart_puts (65 :: 66 :: 0 :: junk) m = (uart_putc 65;; uart_putc 66) m.
Proof.
  intros Hcs. split.
  - revert m. induction Hcs as [|c cs Hc _ IH]; intros m; [done|].
    simpl. rewrite (proj2 (Z.eqb_neq c 0) Hc).
    unfold mbind, M_bind. by destruct (uart_putc c m).
  - simpl. unfold mbind, M_bind.
    destruct (uart_putc 65 m) as [[] m1|]; [|done].
    by destruct (uart_putc 66 m1) as [[] m2|].
Qed.

(** ** Invariants of the transfer operations

    A relation between machines that is reflexive, transitive and kept by
    the primitive accesses an operation makes is kept by the operation,
    whether it returns or not. *)

Lemma bind_done {A B} (c : M A) (k : A → M B) m b m' :
  (c ≫= k) m = Done b m' → ∃ a m1, c m = Done a m1 ∧ k a m1 = Done b m'.
Proof.
  unfold mbind, M_bind. destruct (c m) as [a m1|]; [|done]. eauto.
Qed.

Lemma gets_branch_cursor s t ch m f m' :
  gets_branch s t ch m = Done f m' → s ≤ t → s ≤ cursor f.
Proof.
  unfold gets_branch. intros H Hst.
  destruct (ch =? CR).
  - apply bind_done in H as (? & ? & _ & H).
    apply bind_done in H as (? & ? & _ & H).
    apply bind_done in H as (? & ? & _ & H).
    injection H as <- _. done.
  - destruct ((ch =? BS) || (ch =? DEL)).
    + destruct (t >? s) eqn:Hts.
      * apply bind_done in H as (? & ? & _ & H).
        injection H as <- _. simpl. lia.
      * injection H as <- _. done.
    + apply bind_done in H as (? & ? & _ & H).
      apply bind_done in H as (? & ? & _ & H).
      injection H as <- _. simpl. lia.
Qed.

Lemma gets_iter_cursor s t m f m' :
  gets_iter s t m = Done f m' → s ≤ t → s ≤ cursor f.
Proof.
  intros H. apply bind_done in H as (? & ? & _ & H).
  exact (gets_branch_cursor _ _ _ _ _ _ H).
Qed.

Section Invariant.

Variable R : machine → machine → Prop.
Hypothesis R_refl : ∀ m, R m m.
Hypothesis R_trans : ∀ m1 m2 m3, R m1 m2 → R m2 m3 → R m1 m3.

Lemma keeps_ret {A} (a : A) : keeps R (mret a).
Proof. intros m. apply R_refl. Qed.

Lemma keeps_pending {A} : keeps R (λ m, Pending m : outcome A).
Proof. intros m. apply R_refl. Qed.

Lemma keeps_bind_post {A B} (c : M A) (k : A → M B) (Q : A → Prop) :
  keeps R c →
  (∀ m a m', c m = Done a m' → Q a) →
  (∀ a, Q a → keeps R (k a)) →
  keeps R (c ≫= k).
Proof.
  intros Hc HQ Hk m. unfold mbind, M_bind.
  specialize (Hc m). destruct (c m) as [a m1|m1] eqn:Hcm; [|exact Hc].
  eapply R_trans; [exact Hc|]. eapply Hk, HQ, Hcm.
Qed.

Lemma keeps_bind {A B} (c : M A) (k : A → M B) :
  keeps R c → (∀ a, keeps R (k a)) → keeps R (c ≫= k).
Proof.
  intros Hc Hk. apply (keeps_bind_post c k (λ _, True)); auto.
Qed.

Hypothesis R_read_lsr : keeps R (uart_read_reg LSR).
Hypothesis R_write_thr : ∀ v, keeps R (uart_write_reg THR v).

Lemma keeps_spin n mask : keeps R (spin n LSR mask).
Proof.
  induction n as [|n IH]; [apply keeps_pending|].
  simpl. apply keeps_bind; [done|]. intros v.
  destruct (Z.land v mask =? 0); [done|apply keeps_ret].
Qed.

Lemma keeps_busy_wait mask : keeps R (busy_wait LSR mask).
Proof. intros m. apply keeps_spin. Qed.

Lemma keeps_putc ch : keeps R (uart_putc ch).
Proof. apply keeps_bind; [apply keeps_busy_wait|done]. Qed.

Lemma keeps_puts str : keeps R (uart_puts str).
Proof.
  induction str as [|c str IH]; [apply keeps_pending|].
  simpl. destruct (c =? 0); [apply keeps_ret|].
  apply keeps_bind; [apply keeps_putc|done].
Qed.

(** The stores to memory that [R] tolerates are those at the addresses
    [ok]; the cursor stays among them. *)
Variable s : Z.
Variable ok : Z → Prop.
Hypothesis ok_cursor : ∀ t ch m f m',
  ok t → gets_branch s t ch m = Done f m' → ok (cursor f).
Hypothesis R_poke : ∀ t v, ok t → keeps R (poke t v).

Lemma keeps_branch t ch : ok t → keeps R (gets_branch s t ch).
Proof.
  intros Hst. unfold gets_branch.
  destruct (ch =? CR); [|destruct ((ch =? BS) || (ch =? DEL)); [destruct (t >? s)|]];
    repeat first
      [ apply keeps_ret | apply keeps_putc | apply keeps_puts | by apply R_poke
      | apply keeps_bind; [|intros ?] ].
Qed.

Hypothesis R_read_rhr : keeps R (uart_read_reg RHR).

Lemma keeps_getc : keeps R uart_getc.
Proof. apply keeps_bind; [apply keeps_busy_wait|done]. Qed.

Lemma keeps_iter t : ok t → keeps R (gets_iter s t).
Proof.
  intros Hst. apply keeps_bind; [apply keeps_getc|].
  intros ch. by apply keeps_branch.
Qed.

Lemma ok_iter t m f m' : ok t → gets_iter s t m = Done f m' → ok (cursor f).
Proof.
  intros Hst H. apply bind_done in H as (? & ? & _ & H). by eapply ok_cursor.
Qed.

Lemma keeps_loop n : ∀ t, ok t → keeps R (gets_loop n s t).
Proof.
  induction n as [|n IH]; intros t Hst; [apply keeps_pending|].
  simpl. apply (keeps_bind_post _ _ (λ f, ok (cursor f))).
  - by apply keeps_iter.
  - intros m f m' H. by eapply ok_iter.
  - intros [t'|t'] Hc; [by apply IH|apply keeps_ret].
Qed.

Lemma keeps_steps i : ∀ t, ok t → keeps R (gets_steps i s t).
Proof.
  induction i as [|i IH]; intros t Hst; [apply keeps_ret|].
  simpl. apply (keeps_bind_post _ _ (λ f, ok (cursor f))).
  - by apply keeps_iter.
  - intros m f m' H. by eapply ok_iter.
  - intros [t'|t'] Hc; [by apply IH|apply keeps_ret].
Qed.

Lemma keeps_gets : ok s → keeps R (uart_gets s).
Proof.
  intros Hs. apply keeps_bind; [|intros ?; apply keeps_ret].
  intros m. by apply keeps_loop.
Qed.

End Invariant.

(** ** The divisor latch stays closed *)

Lemma extends_by_refl P m : extends_by P m m.
Proof. exists []. by rewrite (right_id_L [] (++)). Qed.

Lemma extends_by_trans P m1 m2 m3 :
  extends_by P m1 m2 → extends_by P m2 m3 → extends_by P m1 m3.
Proof.
  intros (tr1 & H1 & F1) (tr2 & H2 & F2). exists (tr1 ++ tr2).
  split; [by rewrite H2, H1, (assoc_L (++))|by apply Forall_app].
Qed.

Lemma extends_by_read P reg :
  (∀ v, P (Load (UART_REG reg) v)) → keeps (extends_by P) (uart_read_reg reg).
Proof.
  intros HP m. unfold uart_read_reg.
  destruct (queue m (UART_REG reg)) as [|v vs]; simpl.
  - apply extends_by_refl.
  - eexists. split; [done|]. by constructor.
Qed.

Lemma extends_by_write P reg v :
  (∀ w, P (Store (UART_REG reg) w)) → keeps (extends_by P) (uart_write_reg reg v).
Proof. intros HP m. simpl. eexists. split; [done|]. by constructor. Qed.

Lemma extends_by_poke P t v : keeps (extends_by P) (poke t v).
Proof. intros m. simpl. exists []. by rewrite (right_id_L [] (++)). Qed.

Lemma run_calls_transfer cs : keeps (extends_by transfer_access) (run_calls cs).
Proof.
  pose proof (extends_by_refl transfer_access) as Hr.
  pose proof (extends_by_trans transfer_access) as Ht.
  assert (Hl : keeps (extends_by transfer_access) (uart_read_reg LSR))
    by (apply extends_by_read; intros v; by left).
  assert (Hd : keeps (extends_by transfer_access) (uart_read_reg RHR))
    by (apply extends_by_read; intros v; by right).
  assert (Hw : ∀ v, keeps (extends_by transfer_access) (uart_write_reg THR v))
    by (intros v; by apply extends_by_write).
  induction cs as [|c cs IH]; [by apply keeps_ret|].
  simpl. apply keeps_bind; [done..| |done].
  destruct c as [ch|str| |buf]; simpl.
  - by apply keeps_putc.
  - by apply keeps_puts.
  - apply keeps_bind; [done..|by apply keeps_getc|intros ?; by apply keeps_ret].
  - apply keeps_bind; [done..| |intros ?; by apply keeps_ret].
    apply (keeps_gets _ Hr Ht Hl Hw buf (λ _, True)); [done| |done..].
    intros t v _. apply extends_by_poke.
Qed.

Lemma lcr_after_app tr1 tr2 lcr0 :
  lcr_after (tr1 ++ tr2) lcr0 = lcr_after tr2 (lcr_after tr1 lcr0).
Proof. apply fold_left_app. Qed.

Lemma lcr_after_transfer tr lcr0 :
  Forall transfer_access tr → lcr_after tr lcr0 = lcr0.
Proof.
  intros H. revert lcr0. induction H as [|e tr He _ IH]; intros lcr0; [done|].
  unfold lcr_after in *. simpl. rewrite IH.
  destruct e as [a v|a v]; [done|]. simpl in *. subst a.
  rewrite decide_False; [done|]. unfold UART_REG, THR, LCR. lia.
Qed.

Lemma stores_at_transfer tr :
  Forall transfer_access tr → stores_at (UART_REG LCR) tr = [].
Proof.
  induction 1 as [|e tr He _ IH]; [done|].
  simpl. rewrite IH. destruct e as [a v|a v]; [done|]. simpl in *. subst a.
  rewrite decide_False; [done|]. unfold UART_REG, THR, LCR. lia.
Qed.

Lemma uart_read_reg_done reg m v m' :
  uart_read_reg reg m = Done v m' →
  trace m' = trace m ++ [Load (UART_REG reg) v].
Proof.
  unfold uart_read_reg. destruct (queue m (UART_REG reg)); [done|].
  intros H. injection H as <- <-. done.
Qed.

Lemma uart_init_trace m m1 :
  uart_init m = Done () m1 →
  ∃ v1 v2 w1 w2,
    trace m1 = trace m ++
      [ Store (UART_REG IER) 0; Load (UART_REG LCR) v1; Store (UART_REG LCR) w1;
        Store (UART_REG DLL) 3; Store (UART_REG DLM) 0; Store (UART_REG LCR) 3;
        Load (UART_REG IER) v2; Store (UART_REG IER) w2 ].
Proof.
  unfold uart_init. intros H.
  apply bind_done in H as ([] & ma & Ha & H). injection Ha as <-.
  apply bind_done in H as (v1 & mb & Hb & H). apply uart_read_reg_done in Hb.
  apply bind_done in H as ([] & mc & Hc & H). injection Hc as <-.
  apply bind_done in H as ([] & md & Hd & H). injection Hd as <-.
  apply bind_done in H as ([] & me & He & H). injection He as <-.
  apply bind_done in H as ([] & mf & Hf & H). injection Hf as <-.
  apply bind_done in H as (v2 & mg & Hg & H). apply uart_read_reg_done in Hg.
  injection H as <-. simpl in *.
  exists v1, v2. eexists _, _.
  rewrite Hg. simpl. rewrite Hb. simpl.
  rewrite <- !(assoc_L (++)). simpl. reflexivity.
Qed.

(** C6: when [uart_init] has returned, Line Control holds 3, whatever it
    held before, so the Divisor Latch Access Bit is 0: the last store to it
    is the plain 3.  Whatever transfer operations are called afterwards,
    and whether the last of them returns or not, they never store to Line
    Control: at every point of their accesses it still holds 3 and the
    latch is closed, so offset 0 addresses the data registers. *)
Theorem latch_closed_after_init (m m1 : machine) (lcr0 : Z) (cs : list call) :
  uart_init m = Done () m1 →
  ∃ tr1 tr2,
    trace m1 = trace m ++ tr1 ∧
    lcr_after tr1 lcr0 = 3 ∧
    DLAB (lcr_after tr1 lcr0) = false ∧
    trace (final (run_calls cs m1)) = trace m1 ++ tr2 ∧
    stores_at (UART_REG LCR) tr2 = [] ∧
    ∀ p q, tr2 = p ++ q →
      lcr_after (tr1 ++ p) lcr0 = 3 ∧ DLAB (lcr_after (tr1 ++ p) lcr0) = false.
Proof.
  intros Hinit.
  destruct (uart_init_trace _ _ Hinit) as (v1 & v2 & w1 & w2 & Htr1).
  destruct (run_calls_transfer cs m1) as (tr2 & Htr2 & Hall).
  eexists _, tr2. split; [exact Htr1|].
  assert (Hlcr : lcr_after
    [ Store (UART_REG IER) 0; Load (UART_REG LCR) v1; Store (UART_REG LCR) w1;
      Store (UART_REG DLL) 3; Store (UART_REG DLM) 0; Store (UART_REG LCR) 3;
      Load (UART_REG IER) v2; Store (UART_REG IER) w2 ] lcr0 = 3).
  { unfold lcr_after. simpl.
    repeat first
      [ rewrite decide_True by done
      | rewrite decide_False by (unfold UART_REG, IER, DLL, DLM, LCR; lia) ].
    done. }
  rewrite Hlcr. split; [done|]. split; [done|]. split; [exact Htr2|].
  split; [by apply stores_at_transfer|].
  intros p q ->. apply Forall_app in Hall as [Hp _].
  by rewrite lcr_after_app, Hlcr, (lcr_after_transfer _ _ Hp).
Qed.

(** ** Line input: the loop equation *)

Lemma same_queue_read a reg :
  UART_REG reg ≠ a → keeps (same_queue a) (uart_read_reg reg).
Proof.
  intros Hne m. unfold uart_read_reg, same_queue.
  destruct (queue m (UART_REG reg)); simpl; [done|].
  by rewrite queue_insert_ne.
Qed.

Lemma gets_iter_pops s t m f m' :
  gets_iter s t m = Done f m' →
  ∃ k, queue m (UART_REG RHR) = k :: queue m' (UART_REG RHR).
Proof.
  assert (Hne : UART_REG LSR ≠ UART_REG RHR) by (unfold UART_REG, LSR, RHR; lia).
  assert (Hr : ∀ m, same_queue (UART_REG RHR) m m) by done.
  assert (Ht : ∀ m1 m2 m3, same_queue (UART_REG RHR) m1 m2 →
    same_queue (UART_REG RHR) m2 m3 → same_queue (UART_REG RHR) m1 m3)
    by (unfold same_queue; congruence).
  pose proof (same_queue_read _ _ Hne) as Hl.
  assert (Hw : ∀ v, keeps (same_queue (UART_REG RHR)) (uart_write_reg THR v)) by done.
  intros H. apply bind_done in H as (ch & ma & Hget & Hbr).
  apply bind_done in Hget as ([] & mb & Hwait & Hread).
  pose proof (keeps_busy_wait _ Hr Ht Hl LSR_RX_READY m) as E1.
  rewrite Hwait in E1. simpl in E1.
  pose proof (keeps_branch _ Hr Ht Hl Hw s (λ _, True) (λ _ _ _ _, eq_refl) t ch I ma) as E2.
  rewrite Hbr in E2. simpl in E2.
  unfold uart_read_reg in Hread. unfold same_queue in *.
  destruct (queue mb (UART_REG RHR)) as [|k vs] eqn:Hq; [done|].
  injection Hread as _ <-. exists k.
  rewrite <- E1, E2. by rewrite queue_insert_eq.
Qed.

Lemma gets_while_unfold s t m :
  gets_while s t m =
    (f ← gets_iter s t;
     match f with
     | Continue t' => gets_while s t'
     | Break t' => mret t'
     end) m.
Proof.
  unfold gets_while. simpl. unfold mbind, M_bind.
  destruct (gets_iter s t m) as [[t'|t'] m1|] eqn:Hit; [|done..].
  destruct (gets_iter_pops _ _ _ _ _ Hit) as [k ->]. done.
Qed.

(** ** Line input: runs *)

Lemma reaches_refl m :
  reaches m m [] [] (queue m (UART_REG LSR)) (queue m (UART_REG RHR)) (ram m).
Proof. split; [|done]. exists []. by rewrite (right_id_L [] (++)). Qed.

Lemma reaches_trans m1 m2 m3 rxs1 txs1 lsr1 rx1 r1 rxs2 txs2 lsr2 rx2 r2 :
  reaches m1 m2 rxs1 txs1 lsr1 rx1 r1 →
  reaches m2 m3 rxs2 txs2 lsr2 rx2 r2 →
  reaches m1 m3 (rxs1 ++ rxs2) (txs1 ++ txs2) lsr2 rx2 r2.
Proof.
  intros [(tr1 & H1 & <- & <-) _] [(tr2 & H2 & <- & <-) ?].
  split; [|done]. exists (tr1 ++ tr2).
  by rewrite H2, H1, (assoc_L (++)), loads_at_app, stores_at_app.
Qed.

Lemma uart_putc_served ch m rest :
  ready_after LSR_TX_IDLE (queue m (UART_REG LSR)) = Some rest →
  ∃ m', uart_putc ch m = Done () m' ∧
        reaches m m' [] [u8 ch] rest (queue m (UART_REG RHR)) (ram m).
Proof.
  assert (Hne : UART_REG LSR ≠ UART_REG RHR) by (unfold UART_REG, LSR, RHR; lia).
  intros H. apply ready_after_split in H as (ws & v & Hq & Hws & Hv).
  unfold uart_putc, mbind, M_bind.
  rewrite (busy_wait_ready _ _ _ _ _ _ Hq Hws Hv). unfold uart_write_reg. simpl.
  eexists. split; [done|]. split; [|split; [apply queue_insert_eq|]].
  - eexists. split; [symmetry; apply (assoc_L (++))|].
    rewrite loads_at_app, stores_at_app, stores_at_polls, loads_at_polls_ne by done.
    simpl. by rewrite decide_True by done.
  - split; [|done]. by rewrite queue_insert_ne.
Qed.

Lemma uart_getc_served m rest k rx :
  ready_after LSR_RX_READY (queue m (UART_REG LSR)) = Some rest →
  queue m (UART_REG RHR) = k :: rx →
  ∃ m', uart_getc m = Done (u8 k) m' ∧
        reaches m m' [u8 k] [] rest rx (ram m).
Proof.
  assert (Hne : UART_REG LSR ≠ UART_REG RHR) by (unfold UART_REG, LSR, RHR; lia).
  intros H Hrx. apply ready_after_split in H as (ws & v & Hq & Hws & Hv).
  unfold uart_getc, mbind, M_bind.
  rewrite (busy_wait_ready _ _ _ _ _ _ Hq Hws Hv).
  rewrite (uart_read_reg_cons RHR _ k rx) by (by rewrite queue_insert_ne).
  simpl. eexists. split; [done|]. split; [|split; [|split; [apply queue_insert_eq|done]]].
  - eexists. split; [symmetry; apply (assoc_L (++))|].
    rewrite loads_at_app, stores_at_app, stores_at_polls, loads_at_polls_ne by done.
    simpl. by rewrite decide_True by done.
  - unfold queue; simpl. rewrite lookup_insert_ne by done. by rewrite lookup_insert_eq.
Qed.

Lemma poke_served t v m :
  ∃ m', poke t v m = Done () m' ∧
        reaches m m' [] [] (queue m (UART_REG LSR)) (queue m (UART_REG RHR))
                (<[t := v]> (ram m)).
Proof.
  eexists. split; [done|]. split; [|done].
  exists []. simpl. by rewrite (right_id_L [] (++)).
Qed.

Lemma serve_app a b q :
  serve (a ++ b) q = match serve a q with Some q' => serve b q' | None => None end.
Proof.
  revert q. induction a as [|k a IH]; intros q; [done|].
  simpl. destruct (ready_after k q); [apply IH|done].
Qed.

Lemma uart_puts_erase_served m rest :
  serve [LSR_TX_IDLE; LSR_TX_IDLE; LSR_TX_IDLE] (queue m (UART_REG LSR)) = Some rest →
  ∃ m', uart_puts [BS; SP; BS; NUL] m = Done () m' ∧
        reaches m m' [] [BS; SP; BS] rest (queue m (UART_REG RHR)) (ram m).
Proof.
  simpl. intros H.
  destruct (ready_after _ (queue m _)) as [q1|] eqn:E1; [|done].
  destruct (ready_after _ q1) as [q2|] eqn:E2; [|done].
  destruct (ready_after _ q2) as [q3|] eqn:E3; [|done].
  injection H as ->.
  destruct (uart_putc_served BS m _ E1) as (m1 & R1 & S1).
  pose proof S1 as (_ & L1 & X1 & M1). rewrite <- L1 in E2.
  destruct (uart_putc_served SP m1 _ E2) as (m2 & R2 & S2).
  pose proof S2 as (_ & L2 & X2 & M2). rewrite <- L2 in E3.
  destruct (uart_putc_served BS m2 _ E3) as (m3 & R3 & S3).
  unfold mbind, M_bind. rewrite R1, R2, R3. simpl.
  exists m3. split; [done|].
  rewrite X1, M1 in S2. rewrite X2, M2, X1, M1 in S3.
  exact (reaches_trans _ _ _ _ _ _ _ _ _ _ _ _ _
           (reaches_trans _ _ _ _ _ _ _ _ _ _ _ _ _ S1 S2) S3).
Qed.

Lemma length_removelast_Z (l : list Z) :
  l ≠ [] → Z.of_nat (length (removelast l)) = Z.of_nat (length l) - 1.
Proof.
  intros H. destruct (exists_last H) as (l' & x & ->).
  rewrite removelast_last, length_app. simpl. lia.
Qed.

(** One iteration on the key [k], typed on the line [acc]. *)
Lemma gets_iter_key s acc k rx m lsr' :
  queue m (UART_REG RHR) = k :: rx →
  0 ≤ k < 256 →
  serve (LSR_RX_READY :: replicate (length (key_echo acc k)) LSR_TX_IDLE)
        (queue m (UART_REG LSR)) = Some lsr' →
  ∃ m',
    gets_iter s (s + Z.of_nat (length acc)) m =
      Done (if k =? CR then Break (s + Z.of_nat (length acc))
            else Continue (s + Z.of_nat (length (key_line acc k)))) m' ∧
    reaches m m' [k] (key_echo acc k) lsr' rx
      (if k =? CR then <[s + Z.of_nat (length acc) := NUL]> (ram m)
       else if erases k then ram m
       else <[s + Z.of_nat (length acc) := k]> (ram m)).
Proof.
  intros Hrx Hk H. simpl in H.
  destruct (ready_after _ (queue m _)) as [q1|] eqn:E1; [|done].
  destruct (uart_getc_served m _ _ _ E1 Hrx) as (m1 & R1 & S1).
  rewrite (u8_small k Hk) in R1, S1.
  pose proof S1 as (_ & L1 & X1 & M1). rewrite <- L1 in H.
  unfold gets_iter, mbind, M_bind. rewrite R1.
  unfold gets_branch, key_echo, key_line in *.
  destruct (k =? CR) eqn:Ecr.
  - simpl in H.
    destruct (ready_after _ (queue m1 _)) as [q2|] eqn:E2; [|done].
    destruct (ready_after _ q2) as [q3|] eqn:E3; [|done].
    injection H as ->.
    destruct (uart_putc_served CR m1 _ E2) as (m2 & R2 & S2).
    pose proof S2 as (_ & L2 & X2 & M2). rewrite <- L2 in E3.
    destruct (uart_putc_served LF m2 _ E3) as (m3 & R3 & S3).
    pose proof S3 as (_ & L3 & X3 & M3).
    destruct (poke_served (s + Z.of_nat (length acc)) NUL m3) as (m4 & R4 & S4).
    unfold mbind, M_bind. rewrite R2, R3, R4. simpl.
    exists m4. split; [done|].
    rewrite L3, X3, X2, X1, M3, M2, M1 in S4.
    rewrite X1, M1 in S2. rewrite X2, X1, M2, M1 in S3.
    exact (reaches_trans _ _ _ _ _ _ _ _ _ _ _ _ _
             (reaches_trans _ _ _ _ _ _ _ _ _ _ _ _ _
                (reaches_trans _ _ _ _ _ _ _ _ _ _ _ _ _ S1 S2) S3) S4).
  - destruct (erases k) eqn:Eer; unfold erases in Eer; rewrite Eer.
    + destruct acc as [|c acc'].
      * simpl in H. rewrite L1 in H. injection H as <-.
        replace (s + Z.of_nat (length []) >? s) with false
          by (rewrite Z.gtb_ltb; symmetry; apply Z.ltb_ge; simpl; lia).
        simpl. by exists m1.
      * replace (s + Z.of_nat (length (c :: acc')) >? s) with true
          by (rewrite Z.gtb_ltb; symmetry; apply Z.ltb_lt; simpl; lia).
        rewrite length_removelast_Z by done.
        replace (s + (Z.of_nat (length (c :: acc')) - 1))
          with (s + Z.of_nat (length (c :: acc')) - 1) by lia.
        destruct (uart_puts_erase_served m1 _ H) as (m2 & R2 & S2).
        unfold mbind, M_bind. rewrite R2.
        exists m2. split; [done|].
        rewrite X1, M1 in S2.
        exact (reaches_trans _ _ _ _ _ _ _ _ _ _ _ _ _ S1 S2).
    + simpl in H.
      destruct (ready_after _ (queue m1 _)) as [q2|] eqn:E2; [|done].
      injection H as ->.
      destruct (uart_putc_served k m1 _ E2) as (m2 & R2 & S2).
      rewrite (u8_small k Hk) in S2.
      pose proof S2 as (_ & L2 & X2 & M2).
      destruct (poke_served (s + Z.of_nat (length acc)) k m2) as (m3 & R3 & S3).
      unfold mbind, M_bind. rewrite R2, R3. simpl.
      rewrite length_app. simpl.
      replace (s + Z.of_nat (length acc + 1)) with (s + Z.of_nat (length acc) + 1) by lia.
      exists m3. split; [done|].
      rewrite L2, X2, X1, M2, M1 in S3.
      rewrite X1, M1 in S2.
      exact (reaches_trans _ _ _ _ _ _ _ _ _ _ _ _ _
               (reaches_trans _ _ _ _ _ _ _ _ _ _ _ _ _ S1 S2) S3).
Qed.

Lemma holds_snoc r s acc x :
  holds r s acc → holds (<[s + Z.of_nat (length acc) := x]> r) s (acc ++ [x]).
Proof.
  intros H i y Hi. destruct (decide (i = length acc)) as [->|Hne].
  - rewrite lookup_app_r, Nat.sub_diag in Hi by lia. simpl in Hi.
    injection Hi as <-. apply lookup_insert_eq.
  - apply lookup_lt_Some in Hi as Hlt. rewrite length_app in Hlt. simpl in Hlt.
    rewrite lookup_app_l in Hi by lia.
    rewrite lookup_insert_ne by lia. by apply H.
Qed.

Lemma holds_removelast r s acc : holds r s acc → holds r s (removelast acc).
Proof.
  intros H. destruct (decide (acc = [])) as [->|Hne]; [done|].
  destruct (exists_last Hne) as (l & x & ->). rewrite removelast_last.
  intros i y Hi. apply H. by apply lookup_app_l_Some.
Qed.

Lemma holds_key_line r s acc k :
  k ≠ CR → holds r s acc →
  holds (if k =? CR then <[s + Z.of_nat (length acc) := NUL]> r
         else if erases k then r
         else <[s + Z.of_nat (length acc) := k]> r) s (key_line acc k).
Proof.
  intros Hk H. unfold key_line. rewrite (proj2 (Z.eqb_neq _ _) Hk).
  destruct (erases k); [by apply holds_removelast|by apply holds_snoc].
Qed.

(** A whole line: the keys [line], none a carriage return, then a carriage
    return, typed on the line [acc]. *)
Lemma gets_while_line s line : ∀ acc m rest lsr',
  queue m (UART_REG RHR) = line ++ CR :: rest →
  Forall (λ k, 0 ≤ k < 256 ∧ k ≠ CR) line →
  serve (waits_of acc (line ++ [CR])) (queue m (UART_REG LSR)) = Some lsr' →
  holds (ram m) s acc →
  ∃ m' r,
    gets_while s (s + Z.of_nat (length acc)) m =
      Done (s + Z.of_nat (length (line_of acc line))) m' ∧
    reaches m m' (line ++ [CR]) (echo_of acc line ++ [CR; LF]) lsr' rest r ∧
    holds r s (line_of acc line ++ [NUL]) ∧
    ∀ a, a < s → r !! a = ram m !! a.
Proof.
  induction line as [|k line IH]; intros acc m rest lsr' Hrx Hline Hserve Hacc.
  - simpl in Hserve. simpl in Hrx.
    destruct (gets_iter_key s acc CR rest m lsr' Hrx) as (m' & Hit & Hre);
      [done|exact Hserve|].
    simpl in Hit, Hre. rewrite gets_while_unfold. unfold mbind, M_bind.
    rewrite Hit. simpl. eexists m', _. split; [done|]. split; [exact Hre|].
    split; [by apply holds_snoc|].
    intros a Ha. by rewrite lookup_insert_ne by lia.
  - inversion_clear Hline as [|?? [Hk Hcr] Hline'].
    simpl in Hrx.
    change (waits_of acc ((k :: line) ++ [CR]))
      with ((LSR_RX_READY :: replicate (length (key_echo acc k)) LSR_TX_IDLE)
              ++ waits_of (key_line acc k) (line ++ [CR])) in Hserve.
    rewrite serve_app in Hserve.
    destruct (serve (LSR_RX_READY :: _) _) as [q1|] eqn:E1; [|done].
    destruct (gets_iter_key s acc k _ m q1 Hrx Hk E1) as (m1 & Hit & Hre).
    rewrite (proj2 (Z.eqb_neq _ _) Hcr) in Hit.
    pose proof Hre as (_ & L1 & X1 & M1). rewrite <- L1 in Hserve.
    pose proof (holds_key_line (ram m) s acc k Hcr Hacc) as Hacc1.
    rewrite <- M1 in Hacc1.
    destruct (IH (key_line acc k) m1 rest lsr' X1 Hline' Hserve Hacc1)
      as (m' & r & Hw & Hre' & Hh & Hlow).
    rewrite gets_while_unfold. unfold mbind, M_bind. rewrite Hit.
    exists m', r. split; [exact Hw|]. split; [|split; [exact Hh|]].
    + simpl. rewrite <- (assoc_L (++)).
      exact (reaches_trans _ _ _ _ _ _ _ _ _ _ _ _ _ Hre Hre').
    + intros a Ha. rewrite (Hlow a Ha), M1.
      rewrite (proj2 (Z.eqb_neq _ _) Hcr).
      destruct (erases k); [done|]. by rewrite lookup_insert_ne by lia.
Qed.

Lemma uart_gets_line s line m rest lsr' :
  queue m (UART_REG RHR) = line ++ CR :: rest →
  Forall (λ k, 0 ≤ k < 256 ∧ k ≠ CR) line →
  serve (waits_of [] (line ++ [CR])) (queue m (UART_REG LSR)) = Some lsr' →
  Z.of_nat (length (line_of [] line)) < 2 ^ 64 →
  ∃ m' r,
    uart_gets s m = Done (Z.of_nat (length (line_of [] line))) m' ∧
    reaches m m' (line ++ [CR]) (echo_of [] line ++ [CR; LF]) lsr' rest r ∧
    holds r s (line_of [] line ++ [NUL]) ∧
    ∀ a, a < s → r !! a = ram m !! a.
Proof.
  intros Hrx Hline Hserve Hlen.
  destruct (gets_while_line s line [] m rest lsr' Hrx Hline Hserve)
    as (m' & r & Hw & Hre & Hh & Hlow); [done|].
  simpl in Hw. rewrite Z.add_0_r in Hw.
  exists m', r. split; [|done].
  unfold uart_gets, mbind, M_bind. rewrite Hw. unfold mret, M_ret. f_equal.
  unfold u64. rewrite Z.mod_small; lia.
Qed.

(** ** DEL typed for backspace *)

Lemma retyped_bind {A B} (relA : A → A → Prop) (relB : B → B → Prop)
    (c1 c2 : M A) (k1 k2 : A → M B) m1 m2 :
  retyped_out relA (c1 m1) (c2 m2) →
  (∀ a1 a2 n1 n2, relA a1 a2 → retyped n1 n2 →
     retyped_out relB (k1 a1 n1) (k2 a2 n2)) →
  retyped_out relB ((c1 ≫= k1) m1) ((c2 ≫= k2) m2).
Proof.
  intros Hc Hk. unfold mbind, M_bind.
  destruct (c1 m1) as [a1 n1|n1], (c2 m2) as [a2 n2|n2]; try done.
  destruct Hc as [Ha Hn]. by apply Hk.
Qed.

Lemma retyped_ret {A} (a : A) m1 m2 :
  retyped m1 m2 → retyped_out eq ((mret a : M A) m1) ((mret a : M A) m2).
Proof. by split. Qed.

Lemma retyped_read_lsr m1 m2 :
  retyped m1 m2 → retyped_out eq (uart_read_reg LSR m1) (uart_read_reg LSR m2).
Proof.
  assert (Hne : UART_REG LSR ≠ UART_REG RHR) by (unfold UART_REG, LSR, RHR; lia).
  intros (Hrx & Hq & Htx & Hram). unfold uart_read_reg.
  rewrite (Hq _ Hne). destruct (queue m1 (UART_REG LSR)) as [|v vs]; simpl.
  - done.
  - split; [done|]. split; [|split; [|split; [|done]]].
    + by rewrite !queue_insert_ne.
    + intros a Ha. destruct (decide (UART_REG LSR = a)) as [<-|Hne'].
      * by rewrite !queue_insert_eq.
      * rewrite !queue_insert_ne by done. apply (Hq a Ha).
    + simpl. by rewrite !stores_at_app, Htx.
Qed.

Lemma retyped_read_rhr m1 m2 :
  retyped m1 m2 →
  retyped_out retyped_key (uart_read_reg RHR m1) (uart_read_reg RHR m2).
Proof.
  intros (Hrx & Hq & Htx & Hram). unfold uart_read_reg.
  rewrite Hrx. destruct (queue m1 (UART_REG RHR)) as [|k rx] eqn:E; simpl.
  - split; [by rewrite E|done].
  - split; [|split; [|split; [|split; [|done]]]].
    + unfold retyped_key, bs_for_del.
      destruct (k =? DEL) eqn:Ek; [|by left].
      apply Z.eqb_eq in Ek as ->. by right.
    + by rewrite !queue_insert_eq.
    + intros a Ha. rewrite !queue_insert_ne by done. apply (Hq a Ha).
    + simpl. by rewrite !stores_at_app, Htx.
Qed.

Lemma retyped_write reg v m1 m2 :
  retyped m1 m2 →
  retyped_out eq (uart_write_reg reg v m1) (uart_write_reg reg v m2).
Proof.
  intros (Hrx & Hq & Htx & Hram). split; [done|].
  split; [done|]. split; [done|]. split; [|done].
  simpl. by rewrite !stores_at_app, Htx.
Qed.

Lemma retyped_poke t v m1 m2 :
  retyped m1 m2 → retyped_out eq (poke t v m1) (poke t v m2).
Proof.
  intros (Hrx & Hq & Htx & Hram). split; [done|].
  split; [done|]. split; [done|]. split; [done|]. simpl. by rewrite Hram.
Qed.

Lemma retyped_spin n mask : ∀ m1 m2,
  retyped m1 m2 → retyped_out eq (spin n LSR mask m1) (spin n LSR mask m2).
Proof.
  induction n as [|n IH]; intros m1 m2 H; [done|].
  simpl. eapply retyped_bind; [by apply retyped_read_lsr|].
  intros v ? n1 n2 <- Hn.
  destruct (Z.land v mask =? 0); [by apply IH|by apply retyped_ret].
Qed.

Lemma retyped_busy_wait mask m1 m2 :
  retyped m1 m2 →
  retyped_out eq (busy_wait LSR mask m1) (busy_wait LSR mask m2).
Proof.
  intros H. unfold busy_wait.
  replace (queue m2 (UART_REG LSR)) with (queue m1 (UART_REG LSR)).
  - by apply retyped_spin.
  - symmetry. apply H. unfold UART_REG, LSR, RHR. lia.
Qed.

Lemma retyped_putc ch m1 m2 :
  retyped m1 m2 → retyped_out eq (uart_putc ch m1) (uart_putc ch m2).
Proof.
  intros H. eapply retyped_bind; [by apply retyped_busy_wait|].
  intros ???? _ Hn. by apply retyped_write.
Qed.

Lemma retyped_puts str : ∀ m1 m2,
  retyped m1 m2 → retyped_out eq (uart_puts str m1) (uart_puts str m2).
Proof.
  induction str as [|c str IH]; intros m1 m2 H; [done|].
  simpl. destruct (c =? 0); [by apply retyped_ret|].
  eapply retyped_bind; [by apply retyped_putc|].
  intros ???? _ Hn. by apply IH.
Qed.

Lemma retyped_getc m1 m2 :
  retyped m1 m2 → retyped_out retyped_key (uart_getc m1) (uart_getc m2).
Proof.
  intros H. eapply retyped_bind; [by apply retyped_busy_wait|].
  intros ???? _ Hn. by apply retyped_read_rhr.
Qed.

Lemma retyped_branch_same s t ch m1 m2 :
  retyped m1 m2 →
  retyped_out eq (gets_branch s t ch m1) (gets_branch s t ch m2).
Proof.
  intros H. unfold gets_branch.
  destruct (ch =? CR); [|destruct ((ch =? BS) || (ch =? DEL)); [destruct (t >? s)|]].
  - eapply retyped_bind; [by apply retyped_putc|]. intros ???? _ H1.
    eapply retyped_bind; [by apply retyped_putc|]. intros ???? _ H2.
    eapply retyped_bind; [by apply retyped_poke|]. intros ???? _ H3.
    by apply retyped_ret.
  - eapply retyped_bind; [by apply retyped_puts|]. intros ???? _ H1.
    by apply retyped_ret.
  - by apply retyped_ret.
  - eapply retyped_bind; [by apply retyped_putc|]. intros ???? _ H1.
    eapply retyped_bind; [by apply retyped_poke|]. intros ???? _ H2.
    by apply retyped_ret.
Qed.

Lemma gets_branch_del s t : gets_branch s t DEL = gets_branch s t BS.
Proof. reflexivity. Qed.

Lemma retyped_branch s t c1 c2 m1 m2 :
  retyped_key c1 c2 → retyped m1 m2 →
  retyped_out eq (gets_branch s t c1 m1) (gets_branch s t c2 m2).
Proof.
  intros [->|[-> ->]] H.
  - by apply retyped_branch_same.
  - rewrite gets_branch_del. by apply retyped_branch_same.
Qed.

Lemma retyped_iter s t m1 m2 :
  retyped m1 m2 → retyped_out eq (gets_iter s t m1) (gets_iter s t m2).
Proof.
  intros H. eapply retyped_bind; [by apply retyped_getc|].
  intros c1 c2 n1 n2 Hc Hn. by apply retyped_branch.
Qed.

Lemma retyped_loop n s : ∀ t m1 m2,
  retyped m1 m2 → retyped_out eq (gets_loop n s t m1) (gets_loop n s t m2).
Proof.
  induction n as [|n IH]; intros t m1 m2 H; [done|].
  simpl. eapply retyped_bind; [by apply retyped_iter|].
  intros f ? n1 n2 <- Hn.
  destruct f as [t'|t']; [by apply IH|by apply retyped_ret].
Qed.

Lemma retyped_gets s m1 m2 :
  retyped m1 m2 → retyped_out eq (uart_gets s m1) (uart_gets s m2).
Proof.
  intros H. eapply retyped_bind.
  - unfold gets_while.
    replace (length (queue m2 (UART_REG RHR)))
      with (length (queue m1 (UART_REG RHR)))
      by (destruct H as [-> _]; by rewrite length_map).
    by apply retyped_loop.
  - intros t ? n1 n2 <- Hn. by apply retyped_ret.
Qed.

Lemma retyped_retype m : retyped m (retype m).
Proof.
  unfold retype. split; [apply queue_insert_eq|].
  split; [|done]. intros a Ha. by rewrite queue_insert_ne.
Qed.

(** A device that is ready at every poll ends every wait, as long as its
    answers last. *)
Lemma serve_always_ready masks : ∀ q,
  Forall (λ k, k = LSR_RX_READY ∨ k = LSR_TX_IDLE) masks →
  Forall (λ v, Z.testbit (u8 v) 0 = true ∧ Z.testbit (u8 v) 5 = true) q →
  (length masks ≤ length q)%nat →
  serve masks q = Some (drop (length masks) q).
Proof.
  induction masks as [|k masks IH]; intros q Hm Hq Hlen; [done|].
  inversion_clear Hm as [|?? Hk Hm'].
  destruct q as [|v q]; [simpl in Hlen; lia|].
  inversion_clear Hq as [|?? [H0 H5] Hq']. simpl.
  replace (Z.land (u8 v) k =? 0) with false.
  - apply IH; [done..|simpl in Hlen; lia].
  - symmetry. apply Z.eqb_neq. intros Hz.
    destruct Hk as [->| ->].
    + apply (land_bit _ 0) in Hz; [congruence|done].
    + apply (land_bit _ 5) in Hz; [congruence|done].
Qed.

(** ** Line input: the claims *)

Lemma gets_branch_flow s t ch m f m' :
  gets_branch s t ch m = Done f m' →
  f = if ch =? CR then Break t
      else if erases ch then (if t >? s then Continue (t - 1) else Continue t)
      else Continue (t + 1).
Proof.
  unfold gets_branch, erases. intros H.
  destruct (ch =? CR).
  - apply bind_done in H as (? & ? & _ & H).
    apply bind_done in H as (? & ? & _ & H).
    apply bind_done in H as (? & ? & _ & H).
    by injection H as <- _.
  - destruct ((ch =? BS) || (ch =? DEL)).
    + destruct (t >? s).
      * apply bind_done in H as (? & ? & _ & H). by injection H as <- _.
      * by injection H as <- _.
    + apply bind_done in H as (? & ? & _ & H).
      apply bind_done in H as (? & ? & _ & H).
      by injection H as <- _.
Qed.

(** A character that is neither a carriage return nor an erasing key is
    echoed as it is, stored at the cursor, and the cursor moves on. *)
Lemma gets_branch_ordinary s t ch m lsr' :
  0 ≤ ch < 256 → ch ≠ CR → erases ch = false →
  ready_after LSR_TX_IDLE (queue m (UART_REG LSR)) = Some lsr' →
  ∃ m' tr,
    gets_branch s t ch m = Done (Continue (t + 1)) m' ∧
    trace m' = trace m ++ tr ∧
    loads_at (UART_REG RHR) tr = [] ∧
    stores_at (UART_REG THR) tr = [ch] ∧
    ram m' = <[t := ch]> (ram m).
Proof.
  intros Hb Hcr Her Hready. unfold gets_branch. unfold erases in Her.
  rewrite (proj2 (Z.eqb_neq _ _) Hcr), Her.
  destruct (uart_putc_served ch m _ Hready) as (m1 & R1 & S1).
  rewrite (u8_small ch Hb) in S1.
  destruct (poke_served t ch m1) as (m2 & R2 & S2).
  unfold mbind, M_bind. rewrite R1, R2.
  pose proof (reaches_trans _ _ _ _ _ _ _ _ _ _ _ _ _ S1 S2)
    as [(tr & Htr & Hl & Hs) (_ & _ & Hram)].
  destruct S1 as (_ & _ & _ & M1). rewrite M1 in Hram.
  by exists m2, tr.
Qed.

(** C2: when the bytes to be received are [line], none of them a carriage
    return, followed by a carriage return, and the device ends every wait of
    the run, [uart_gets] returns; it has then received exactly [line] and the
    carriage return, sent the echo of [line] followed by '\r' and '\n',
    left the edited line followed by a null terminator at the start of the
    buffer, and returned the length of the edited line. *)
Theorem uart_gets_reads_a_line (s : Z) (line rest lsr' : list Z) (m : machine) :
  queue m (UART_REG RHR) = line ++ CR :: rest →
  Forall (λ k, 0 ≤ k < 256 ∧ k ≠ CR) line →
  serve (waits_of [] (line ++ [CR])) (queue m (UART_REG LSR)) = Some lsr' →
  Z.of_nat (length (line_of [] line)) < 2 ^ 64 →
  ∃ m' tr,
    uart_gets s m = Done (Z.of_nat (length (line_of [] line))) m' ∧
    trace m' = trace m ++ tr ∧
    loads_at (UART_REG RHR) tr = line ++ [CR] ∧
    stores_at (UART_REG THR) tr = echo_of [] line ++ [CR; LF] ∧
    queue m' (UART_REG RHR) = rest ∧
    holds (ram m') s (line_of [] line ++ [NUL]) ∧
    ram m' !! (s + Z.of_nat (length (line_of [] line))) = Some NUL.
Proof.
  intros Hrx Hline Hserve Hlen.
  destruct (uart_gets_line s line m rest lsr' Hrx Hline Hserve Hlen)
    as (m' & r & Hret & [(tr & Htr & Hl & Hs) (_ & Hq & <-)] & Hh & _).
  exists m', tr. repeat split; try done.
  apply Hh. rewrite lookup_app_r, Nat.sub_diag by lia. done.
Qed.


(** C9: a NUL received by [uart_gets] takes the last branch of the loop
    body as well: it is sent back, stored at the cursor, and the cursor moves
    on.  So wherever the edited line holds a NUL, the buffer holds a null
    byte at an offset below the value returned. *)
Theorem nul_is_stored (s t : Z) (m : machine) :
  (∀ lsr',
     ready_after LSR_TX_IDLE (queue m (UART_REG LSR)) = Some lsr' →
     ∃ m' tr,
       gets_branch s t NUL m = Done (Continue (t + 1)) m' ∧
       trace m' = trace m ++ tr ∧
       stores_at (UART_REG THR) tr = [NUL] ∧
       ram m' = <[t := NUL]> (ram m)) ∧
  (∀ line rest lsr' (i : nat),
     queue m (UART_REG RHR) = line ++ CR :: rest →
     Forall (λ k, 0 ≤ k < 256 ∧ k ≠ CR) line →
     serve (waits_of [] (line ++ [CR])) (queue m (UART_REG LSR)) = Some lsr' →
     Z.of_nat (length (line_of [] line)) < 2 ^ 64 →
     line_of [] line !! i = Some NUL →
     ∃ r m',
       uart_gets s m = Done r m' ∧
       ram m' !! (s + Z.of_nat i) = Some NUL ∧
       Z.of_nat i < r).
Proof.
  split.
  - intros lsr' H.
    destruct (gets_branch_ordinary s t NUL m lsr') as (m' & tr & ? & ? & ? & ? & ?);
      [done..|]. by exists m', tr.
  - intros line rest lsr' i Hrx Hline Hserve Hlen Hi.
    destruct (uart_gets_line s line m rest lsr' Hrx Hline Hserve Hlen)
      as (m' & r & Hret & [_ (_ & _ & <-)] & Hh & _).
    eexists _, m'. split; [exact Hret|]. split.
    + apply Hh. by apply lookup_app_l_Some.
    + apply lookup_lt_Some in Hi. lia.
Qed.

Lemma echo_of_app keys1 : ∀ acc keys2,
  echo_of acc (keys1 ++ keys2)
  = echo_of acc keys1 ++ echo_of (line_of acc keys1) keys2.
Proof.
  induction keys1 as [|k keys1 IH]; intros acc keys2; [done|].
  simpl. by rewrite IH, (assoc_L (++)).
Qed.

Lemma line_of_app acc keys1 keys2 :
  line_of acc (keys1 ++ keys2) = line_of (line_of acc keys1) keys2.
Proof. apply fold_left_app. Qed.

Lemma key_line_erasing acc k :
  k ≠ CR → erases k = true → key_line acc k = removelast acc.
Proof.
  intros Hcr He. unfold key_line. by rewrite (proj2 (Z.eqb_neq _ _) Hcr), He.
Qed.

Lemma key_echo_erasing acc k :
  k ≠ CR → erases k = true →
  key_echo acc k = match acc with [] => [] | _ => [BS; SP; BS] end.
Proof.
  intros Hcr He. unfold key_echo. by rewrite (proj2 (Z.eqb_neq _ _) Hcr), He.
Qed.

(** C3: DEL and backspace run the same branch of the loop body.  With the
    cursor at the start of the buffer the key changes nothing at all; with
    the cursor past it, and the transmitter idle three times, the cursor
    moves back by one, backspace, space, backspace are sent, and memory is
    left alone.  Typing a backspace for every DEL changes neither the value
    [uart_gets] returns (or that it does not return), nor the memory, nor
    the bytes sent.  And [uart_gets] treats so each backspace or DEL it
    receives: when the bytes to be received are [pre], one of the two keys,
    [post] and a carriage return, the run is the run on [pre], then the
    erase sequence if [pre] left a character on the line and nothing if it
    left none, then the run on [post] from the line of [pre] without its last
    character (the empty line if it was empty). *)
Theorem del_is_backspace (s t : Z) (m : machine) :
  gets_branch s t DEL m = gets_branch s t BS m ∧
  (t ≤ s → gets_branch s t BS m = Done (Continue t) m) ∧
  (s < t → ∀ lsr',
     serve [LSR_TX_IDLE; LSR_TX_IDLE; LSR_TX_IDLE] (queue m (UART_REG LSR)) = Some lsr' →
     ∃ m' tr,
       gets_branch s t BS m = Done (Continue (t - 1)) m' ∧
       trace m' = trace m ++ tr ∧
       stores_at (UART_REG THR) tr = [BS; SP; BS] ∧
       ram m' = ram m) ∧
  observe (uart_gets s (retype m)) = observe (uart_gets s m) ∧
  (∀ pre k post rest lsr',
     k = BS ∨ k = DEL →
     queue m (UART_REG RHR) = (pre ++ k :: post) ++ CR :: rest →
     Forall (λ c, 0 ≤ c < 256 ∧ c ≠ CR) pre →
     Forall (λ c, 0 ≤ c < 256 ∧ c ≠ CR) post →
     serve (waits_of [] ((pre ++ k :: post) ++ [CR])) (queue m (UART_REG LSR))
       = Some lsr' →
     Z.of_nat (length (line_of (removelast (line_of [] pre)) post)) < 2 ^ 64 →
     ∃ m' tr,
       uart_gets s m =
         Done (Z.of_nat (length (line_of (removelast (line_of [] pre)) post))) m' ∧
       trace m' = trace m ++ tr ∧
       loads_at (UART_REG RHR) tr = (pre ++ k :: post) ++ [CR] ∧
       stores_at (UART_REG THR) tr =
         echo_of [] pre
           ++ match line_of [] pre with [] => [] | _ => [BS; SP; BS] end
           ++ echo_of (removelast (line_of [] pre)) post ++ [CR; LF] ∧
       holds (ram m') s (line_of (removelast (line_of [] pre)) post ++ [NUL])).
Proof.
  split; [done|]. split; [|split; [|split]].
  - intros Hts. unfold gets_branch. simpl.
    by rewrite Z.gtb_ltb, (proj2 (Z.ltb_ge s t)) by lia.
  - intros Hst lsr' Hserve. unfold gets_branch. simpl (BS =? CR).
    simpl ((BS =? BS) || (BS =? DEL)). cbv iota.
    rewrite Z.gtb_ltb, (proj2 (Z.ltb_lt s t)) by lia.
    destruct (uart_puts_erase_served m _ Hserve)
      as (m' & R & [(tr & Htr & Hl & Hs) (_ & _ & Hram)]).
    unfold mbind, M_bind. rewrite R. by exists m', tr.
  - pose proof (retyped_gets s m (retype m) (retyped_retype m)) as H.
    unfold observe.
    destruct (uart_gets s m) as [r1 m1|m1], (uart_gets s (retype m)) as [r2 m2|m2];
      try done; simpl in *.
    + destruct H as (<- & _ & _ & -> & ->). done.
    + destruct H as (_ & _ & -> & ->). done.
  - intros pre k post rest lsr' Hk Hrx Hpre Hpost Hserve Hlen.
    assert (Hkey : 0 ≤ k < 256 ∧ k ≠ CR ∧ erases k = true)
      by (destruct Hk as [-> | ->]; done).
    destruct Hkey as (Hkb & Hkcr & Hke).
    assert (Hline : line_of [] (pre ++ k :: post)
                    = line_of (removelast (line_of [] pre)) post).
    { rewrite line_of_app.
      change (line_of (line_of [] pre) (k :: post))
        with (line_of (key_line (line_of [] pre) k) post).
      by rewrite (key_line_erasing _ k Hkcr Hke). }
    assert (Hecho : echo_of [] (pre ++ k :: post)
                    = echo_of [] pre
                        ++ match line_of [] pre with [] => [] | _ => [BS; SP; BS] end
                        ++ echo_of (removelast (line_of [] pre)) post).
    { rewrite echo_of_app.
      change (echo_of (line_of [] pre) (k :: post))
        with (key_echo (line_of [] pre) k
                ++ echo_of (key_line (line_of [] pre) k) post).
      by rewrite (key_line_erasing _ k Hkcr Hke), (key_echo_erasing _ k Hkcr Hke). }
    destruct (uart_gets_line s (pre ++ k :: post) m rest lsr' Hrx)
      as (m' & r & Hret & [(tr & Htr & Hl & Hs) (_ & _ & <-)] & Hh & _).
    + apply Forall_app. split; [done|]. by constructor.
    + done.
    + by rewrite Hline.
    + rewrite Hline in Hret, Hh. rewrite Hecho in Hs.
      exists m', tr. split; [done|]. split; [done|]. split; [done|].
      split; [|done]. by rewrite Hs, <- !(assoc_L (++)).
Qed.

(** ** The cursor invariant *)

Lemma extends_by_send_loads m m' :
  extends_by send_access m m' →
  ∃ tr, trace m' = trace m ++ tr ∧ loads_at (UART_REG RHR) tr = [].
Proof.
  intros (tr & Htr & Hall). exists tr. split; [done|]. clear Htr.
  induction Hall as [|e tr He _ IH]; [done|].
  simpl. rewrite IH. destruct e as [a v|a v]; [|done]. simpl in He. subst a.
  rewrite decide_False; [done|]. unfold UART_REG, LSR, RHR. lia.
Qed.

(** What one completed iteration has done: it received one byte [k], and
    the cursor moved as [key_line] says. *)
Lemma gets_iter_done s acc m f m' :
  gets_iter s (s + Z.of_nat (length acc)) m = Done f m' →
  ∃ k tr,
    trace m' = trace m ++ tr ∧
    loads_at (UART_REG RHR) tr = [k] ∧
    f = if k =? CR then Break (s + Z.of_nat (length acc))
        else Continue (s + Z.of_nat (length (key_line acc k))).
Proof.
  pose proof (extends_by_refl send_access) as Hr.
  pose proof (extends_by_trans send_access) as Ht.
  assert (Hl : keeps (extends_by send_access) (uart_read_reg LSR))
    by (by apply extends_by_read).
  assert (Hw : ∀ v, keeps (extends_by send_access) (uart_write_reg THR v))
    by (intros v; by apply extends_by_write).
  intros H. apply bind_done in H as (k & ma & Hget & Hbr).
  apply bind_done in Hget as ([] & mb & Hwait & Hread).
  pose proof (keeps_busy_wait _ Hr Ht Hl LSR_RX_READY m) as E1.
  rewrite Hwait in E1. apply extends_by_send_loads in E1 as (tr1 & Htr1 & Hl1).
  apply uart_read_reg_done in Hread.
  pose proof (keeps_branch _ Hr Ht Hl Hw s (λ _, True)
                (λ t v _, extends_by_poke send_access t v)
                (s + Z.of_nat (length acc)) k I ma) as E2.
  rewrite Hbr in E2. apply extends_by_send_loads in E2 as (tr2 & Htr2 & Hl2).
  exists k, (tr1 ++ [Load (UART_REG RHR) k] ++ tr2). split; [|split].
  - simpl in *. rewrite Htr2, Hread, Htr1. by rewrite <- !(assoc_L (++)).
  - rewrite !loads_at_app, Hl1, Hl2. simpl. by rewrite decide_True by done.
  - apply gets_branch_flow in Hbr. rewrite Hbr. unfold key_line.
    destruct (k =? CR); [done|]. destruct (erases k).
    + destruct acc as [|c acc'].
      * by rewrite Z.gtb_ltb, (proj2 (Z.ltb_ge _ _)) by (simpl; lia).
      * rewrite Z.gtb_ltb, (proj2 (Z.ltb_lt _ _)) by (simpl; lia).
        rewrite length_removelast_Z by done. f_equal. lia.
    + rewrite length_app. simpl. f_equal. lia.
Qed.

Lemma gets_steps_cursor s i : ∀ acc m f m',
  gets_steps i s (s + Z.of_nat (length acc)) m = Done f m' →
  ∃ tr, trace m' = trace m ++ tr ∧
        cursor f = s + Z.of_nat (length (line_of acc (loads_at (UART_REG RHR) tr))).
Proof.
  induction i as [|i IH]; intros acc m f m' H.
  - injection H as <- <-. exists []. by rewrite (right_id_L [] (++)).
  - simpl in H. apply bind_done in H as (f1 & m1 & Hit & H).
    apply gets_iter_done in Hit as (k & tr1 & Htr1 & Hl1 & ->).
    destruct (k =? CR) eqn:Ek.
    + injection H as <- <-. exists tr1. split; [done|].
      rewrite Hl1. simpl. unfold key_line. by rewrite Ek.
    + apply IH in H as (tr2 & Htr2 & Hc). exists (tr1 ++ tr2).
      split; [by rewrite Htr2, Htr1, (assoc_L (++))|].
      by rewrite Hc, loads_at_app, Hl1.
Qed.

(** The length of the edited line, counted as the invariant is worded. *)
Lemma line_of_count keys : ∀ acc,
  (length (line_of acc keys) + erased_count acc keys
   = length acc + stored_count keys)%nat.
Proof.
  unfold stored_count.
  induction keys as [|k keys IH]; intros acc; [simpl; lia|].
  simpl. specialize (IH (key_line acc k)). fold (line_of (key_line acc k) keys).
  unfold key_line, ordinary in *.
  destruct (k =? CR) eqn:Ecr.
  - replace (erases k) with false; [simpl; lia|].
    apply Z.eqb_eq in Ecr as ->. done.
  - destruct (erases k); simpl.
    + destruct acc as [|c acc']; [simpl in *; lia|].
      pose proof (length_removelast_Z (c :: acc') ltac:(done)) as Hrl.
      simpl length in *. lia.
    + rewrite length_app in IH. simpl in *. lia.
Qed.

Lemma gets_loop_steps s n : ∀ t m t' m',
  gets_loop n s t m = Done t' m' → gets_steps n s t m = Done (Break t') m'.
Proof.
  induction n as [|n IH]; intros t m t' m' H; [done|].
  simpl in *. apply bind_done in H as (f & m1 & Hit & H).
  unfold mbind, M_bind. rewrite Hit.
  destruct f as [t1|t1]; [by apply IH|]. by injection H as <- <-.
Qed.

Lemma same_below_keeps_steps s i m :
  same_below s m (final (gets_steps i s s m)).
Proof.
  assert (Hr : ∀ m, same_below s m m) by done.
  assert (Ht : ∀ m1 m2 m3, same_below s m1 m2 → same_below s m2 m3 → same_below s m1 m3).
  { intros m1 m2 m3 H1 H2 a Ha. by rewrite (H2 a Ha), (H1 a Ha). }
  apply (keeps_steps _ Hr Ht) with (ok := λ t, s ≤ t); try done.
  - intros m1. unfold uart_read_reg. by destruct (queue m1 _).
  - intros t ch m1 f m' Hst H. by apply gets_branch_cursor in H.
  - intros t v Hst m1 a Ha. simpl. by rewrite lookup_insert_ne by lia.
  - intros m1. unfold uart_read_reg. by destruct (queue m1 _).
Qed.

(** C10: the cursor of [uart_gets] never moves below the start [s] of the
    buffer.  After any number of iterations, the cursor is [s] plus the
    number of bytes received that were stored minus the number of erasing
    keys that found a character to erase; the latter never exceeds the
    former, so the cursor is at least [s].  No store to memory lands below
    [s], whether the iterations complete or not.  What [uart_gets] returns is
    the conversion of [t - s] for a cursor [t] reached that way. *)
Theorem cursor_never_below_start (s : Z) (i : nat) (m : machine) :
  (∀ a, a < s → ram (final (gets_steps i s s m)) !! a = ram m !! a) ∧
  (∀ f m', gets_steps i s s m = Done f m' →
     ∃ tr, trace m' = trace m ++ tr ∧
       let keys := loads_at (UART_REG RHR) tr in
       cursor f = s + Z.of_nat (stored_count keys) - Z.of_nat (erased_count [] keys) ∧
       (erased_count [] keys ≤ stored_count keys)%nat ∧
       s ≤ cursor f) ∧
  (∀ r m', uart_gets s m = Done r m' →
     ∃ j t, gets_steps j s s m = Done (Break t) m' ∧
            s ≤ t ∧ r = u64 (t - s) ∧ 0 ≤ r).
Proof.
  split; [apply same_below_keeps_steps|]. split.
  - intros f m' H.
    replace s with (s + Z.of_nat (length (@nil Z))) in H at 2 by (simpl; lia).
    apply gets_steps_cursor in H as (tr & Htr & Hc).
    exists tr. split; [done|]. simpl.
    pose proof (line_of_count (loads_at (UART_REG RHR) tr) []) as Hn.
    simpl in Hn. lia.
  - intros r m' H. apply bind_done in H as (t & m1 & Hw & H).
    injection H as <- <-. unfold gets_while in Hw.
    apply gets_loop_steps in Hw. eexists _, t. split; [exact Hw|].
    assert (Hst : s ≤ t).
    { replace s with (s + Z.of_nat (length (@nil Z))) in Hw at 2 by (simpl; lia).
      apply gets_steps_cursor in Hw as (tr & _ & Hc). simpl in Hc. lia. }
    split; [done|]. split; [done|].
    unfold u64. apply Z.mod_pos_bound. lia.
Qed.

(** ** Initialisation and the register window *)

(** The run of [uart_init] on a machine whose device answers [v1] to the
    load of Line Control and [v2] to the load of Interrupt Enable. *)
Lemma uart_init_run m v1 v2 r1 r2 :
  queue m (UART_REG LCR) = v1 :: r1 →
  queue m (UART_REG IER) = v2 :: r2 →
  ∃ m1,
    uart_init m = Done () m1 ∧
    trace m1 = trace m ++
      [ Store (UART_REG IER) 0; Load (UART_REG LCR) (u8 v1);
        Store (UART_REG LCR) (Z.lor (u8 v1) 128);
        Store (UART_REG DLL) 3; Store (UART_REG DLM) 0; Store (UART_REG LCR) 3;
        Load (UART_REG IER) (u8 v2); Store (UART_REG IER) (Z.lor (u8 v2) 1) ].
Proof.
  intros H1 H2.
  assert (Hne : UART_REG LCR ≠ UART_REG IER) by (unfold UART_REG, LCR, IER; lia).
  unfold uart_init, mbind, M_bind. simpl.
  rewrite (uart_read_reg_cons LCR _ v1 r1) by exact H1. simpl.
  rewrite (uart_read_reg_cons IER _ v2 r2)
    by (rewrite queue_insert_ne by done; exact H2).
  simpl. eexists. split; [reflexivity|]. simpl.
  rewrite <- !(assoc_L (++)). simpl.
  change (1 ≪ 7) with 128. change (3 ≪ 0) with 3. change (1 ≪ 0) with 1.
  rewrite !u8_lor, !u8_idemp. simpl (Z.lor 0 3).
  by rewrite (u8_small 0), (u8_small 128), (u8_small 3), (u8_small 1) by lia.
Qed.

(** The loads of Interrupt Enable among the accesses of [uart_init]. *)
Lemma loads_at_ier_init v1 w1 v2 w2 :
  loads_at (UART_REG IER)
    [ Store (UART_REG IER) 0; Load (UART_REG LCR) v1; Store (UART_REG LCR) w1;
      Store (UART_REG DLL) 3; Store (UART_REG DLM) 0; Store (UART_REG LCR) 3;
      Load (UART_REG IER) v2; Store (UART_REG IER) w2 ] = [v2].
Proof.
  unfold loads_at. cbn [flat_map app].
  rewrite decide_False by (unfold UART_REG, LCR, IER; lia).
  by rewrite decide_True by done.
Qed.

Lemma offset_of reg : UART_REG reg - UART0 = reg.
Proof. unfold UART_REG. lia. Qed.

Lemma window_after_app tr1 tr2 w :
  window_after (tr1 ++ tr2) w = window_after tr2 (window_after tr1 w).
Proof. apply fold_left_app. Qed.

Lemma window_store_first w :
  ∃ dlm ier,
    window_store w 1 0 = Window (w_lcr w) (w_dll w) dlm ier (w_sent w).
Proof. unfold window_store. simpl. destruct (DLAB (w_lcr w)); eauto. Qed.

Lemma window_store_open lcr dll dlm ier snt off v :
  DLAB lcr = true →
  window_store (Window lcr dll dlm ier snt) off v =
    if off =? 0 then Window lcr v dlm ier snt
    else if off =? 1 then Window lcr dll v ier snt
    else if off =? 3 then Window v dll dlm ier snt
    else Window lcr dll dlm ier snt.
Proof. intros H. unfold window_store. cbn [w_lcr w_dll w_dlm w_ier w_sent]. by rewrite H. Qed.

Lemma window_store_closed lcr dll dlm ier snt off v :
  DLAB lcr = false →
  window_store (Window lcr dll dlm ier snt) off v =
    if off =? 0 then Window lcr dll dlm ier (snt ++ [v])
    else if off =? 1 then Window lcr dll dlm v snt
    else if off =? 3 then Window v dll dlm ier snt
    else Window lcr dll dlm ier snt.
Proof. intros H. unfold window_store. cbn [w_lcr w_dll w_dlm w_ier w_sent]. by rewrite H. Qed.

Lemma window_store_lcr w v :
  window_store w 3 v = Window v (w_dll w) (w_dlm w) (w_ier w) (w_sent w).
Proof. reflexivity. Qed.

(** With the latch closed, the accesses of the transfer operations change
    nothing in the window but the bytes sent. *)
Lemma window_after_transfer tr : ∀ w,
  Forall transfer_access tr →
  DLAB (w_lcr w) = false →
  window_after tr w =
    Window (w_lcr w) (w_dll w) (w_dlm w) (w_ier w)
           (w_sent w ++ stores_at (UART_REG THR) tr).
Proof.
  induction tr as [|e tr IH]; intros w Hall Hd.
  - simpl. rewrite (right_id_L [] (++)). by destruct w.
  - inversion_clear Hall as [|?? He Hall'].
    unfold window_after in *. simpl.
    destruct e as [a v|a v]; simpl in *.
    + by apply IH.
    + subst a. rewrite offset_of. destruct w as [lcr dll dlm ier snt].
      cbn [w_lcr] in Hd. rewrite (window_store_closed _ _ _ _ _ _ _ Hd).
      unfold THR. cbn [Z.eqb]. rewrite IH by done.
      cbn [w_lcr w_dll w_dlm w_ier w_sent].
      rewrite decide_True by done. by rewrite <- (assoc_L (++)).
Qed.

(** The stores of [uart_init], replayed on any window. *)
Lemma window_after_init v1 v2 w :
  window_after
    [ Store (UART_REG IER) 0; Load (UART_REG LCR) v1;
      Store (UART_REG LCR) (Z.lor v1 128);
      Store (UART_REG DLL) 3; Store (UART_REG DLM) 0; Store (UART_REG LCR) 3;
      Load (UART_REG IER) v2; Store (UART_REG IER) (Z.lor v2 1) ] w
  = Window 3 3 0 (Z.lor v2 1) (w_sent w).
Proof.
  assert (Hopen : DLAB (Z.lor v1 128) = true).
  { unfold DLAB. rewrite Z.lor_spec. by rewrite orb_true_r. }
  unfold window_after. cbn [fold_left window_step]. rewrite !offset_of.
  unfold IER, LCR, DLL, DLM.
  destruct (window_store_first w) as (dlm & ier & ->).
  rewrite (window_store_lcr (Window (w_lcr w) (w_dll w) dlm ier (w_sent w))).
  cbn [w_lcr w_dll w_dlm w_ier w_sent].
  rewrite (window_store_open _ (w_dll w) dlm ier (w_sent w) 0 3 Hopen).
  change (0 =? 0) with true. cbv iota.
  rewrite (window_store_open _ 3 dlm ier (w_sent w) 1 0 Hopen).
  change (1 =? 0) with false. change (1 =? 1) with true. cbv iota.
  rewrite (window_store_lcr (Window (Z.lor v1 128) 3 0 ier (w_sent w))).
  cbn [w_lcr w_dll w_dlm w_ier w_sent].
  by rewrite window_store_closed.
Qed.

(** X1: whatever the controller held before, when the device answers [v1]
    to the load of Line Control and [v2] to the load of Interrupt Enable,
    [uart_init] returns; Interrupt Enable is loaded once, Line Control then
    holds 3 (latch closed, 8 data bits, no parity), the divisor latch holds 3
    (low byte 3, high byte 0), Interrupt Enable holds the byte loaded from
    it with bit 0 set, and no byte has been put in the transmit holding
    register: the stores at offsets 0 and 1 in the middle of the sequence are
    made with the latch open. *)
Theorem uart_init_programs_window (m : machine) (v1 v2 : Z) (r1 r2 : list Z) :
  queue m (UART_REG LCR) = v1 :: r1 →
  queue m (UART_REG IER) = v2 :: r2 →
  ∃ m1 tr,
    uart_init m = Done () m1 ∧
    trace m1 = trace m ++ tr ∧
    loads_at (UART_REG IER) tr = [u8 v2] ∧
    ∀ w, window_after tr w = Window 3 3 0 (Z.lor (u8 v2) 1) (w_sent w).
Proof.
  intros H1 H2. destruct (uart_init_run m v1 v2 r1 r2 H1 H2) as (m1 & Hrun & Htr).
  eexists m1, _. split; [exact Hrun|]. split; [exact Htr|].
  split; [apply loads_at_ier_init|].
  intros w. apply window_after_init.
Qed.

(** X2: after [uart_init], whatever transfer operations are called and
    whether the last of them returns or not, the bytes put in the transmit
    holding register are exactly the bytes those operations stored at offset
    0, in order, after whatever had been sent before; Line Control, the
    divisor latch and Interrupt Enable hold what they held when [uart_init]
    returned: 3, 3 and the byte [uart_init] loaded from Interrupt Enable with
    bit 0 set. *)
Theorem transfers_after_init_reach_the_line
    (m : machine) (v1 v2 : Z) (r1 r2 : list Z) (cs : list call) :
  queue m (UART_REG LCR) = v1 :: r1 →
  queue m (UART_REG IER) = v2 :: r2 →
  ∃ m1 tr1 tr2,
    uart_init m = Done () m1 ∧
    trace m1 = trace m ++ tr1 ∧
    loads_at (UART_REG IER) tr1 = [u8 v2] ∧
    trace (final (run_calls cs m1)) = trace m1 ++ tr2 ∧
    ∀ w,
      window_after tr1 w = Window 3 3 0 (Z.lor (u8 v2) 1) (w_sent w) ∧
      window_after (tr1 ++ tr2) w =
        Window 3 3 0 (Z.lor (u8 v2) 1) (w_sent w ++ stores_at (UART_REG THR) tr2).
Proof.
  intros H1 H2. destruct (uart_init_run m v1 v2 r1 r2 H1 H2) as (m1 & Hrun & Htr).
  destruct (run_calls_transfer cs m1) as (tr2 & Htr2 & Hall).
  eexists m1, _, tr2. split; [exact Hrun|]. split; [exact Htr|].
  split; [apply loads_at_ier_init|]. split; [exact Htr2|].
  intros w. split; [apply window_after_init|].
  rewrite window_after_app, window_after_init.
  by rewrite (window_after_transfer tr2 _ Hall).
Qed.

(** ** Sending, whether the call returns or not *)

Lemma ready_after_none mask q :
  ready_after mask q = None → Forall (λ w, Z.land (u8 w) mask = 0) q.
Proof.
  induction q as [|w q IH]; intros H; [constructor|].
  simpl in H. destruct (Z.land (u8 w) mask =? 0) eqn:Hw; [|done].
  constructor; [by apply Z.eqb_eq|by apply IH].
Qed.

Lemma sent_refl m : sent m m [].
Proof. split; [|done]. exists []. by rewrite (right_id_L [] (++)). Qed.

Lemma transfers_trans m1 m2 m3 rxs1 txs1 rxs2 txs2 :
  transfers m1 m2 rxs1 txs1 → transfers m2 m3 rxs2 txs2 →
  transfers m1 m3 (rxs1 ++ rxs2) (txs1 ++ txs2).
Proof.
  intros (tr1 & H1 & <- & <-) (tr2 & H2 & <- & <-). exists (tr1 ++ tr2).
  by rewrite H2, H1, (assoc_L (++)), loads_at_app, stores_at_app.
Qed.

Lemma sent_trans m1 m2 m3 txs1 txs2 :
  sent m1 m2 txs1 → sent m2 m3 txs2 → sent m1 m3 (txs1 ++ txs2).
Proof.
  intros (T1 & R1 & Q1) (T2 & R2 & Q2). split; [|split; congruence].
  exact (transfers_trans _ _ _ _ _ _ _ T1 T2).
Qed.

Lemma reaches_sent m m' txs lsr rx r :
  reaches m m' [] txs lsr rx r → rx = queue m (UART_REG RHR) → r = ram m →
  sent m m' txs.
Proof. intros (T & _ & Q & R) -> ->. by split. Qed.

Lemma busy_wait_quiet mask : keeps (λ m m', sent m m' []) (busy_wait LSR mask).
Proof.
  apply keeps_busy_wait.
  - apply sent_refl.
  - intros m1 m2 m3 H1 H2. exact (sent_trans _ _ _ _ _ H1 H2).
  - intros m. unfold uart_read_reg.
    destruct (queue m (UART_REG LSR)) as [|v vs]; simpl; [apply sent_refl|].
    split; [|split; [done|]].
    + eexists. split; [done|]. simpl. split; [|done].
      rewrite decide_False; [done|]. unfold UART_REG, LSR, RHR. lia.
    + rewrite queue_insert_ne; [done|]. unfold UART_REG, LSR, RHR. lia.
Qed.

Lemma busy_wait_cases mask m :
  match ready_after mask (queue m (UART_REG LSR)) with
  | Some rest =>
      ∃ m', busy_wait LSR mask m = Done () m' ∧
            queue m' (UART_REG LSR) = rest ∧ sent m m' []
  | None => ∃ m', busy_wait LSR mask m = Pending m' ∧ sent m m' []
  end.
Proof.
  pose proof (busy_wait_quiet mask m) as Hq.
  destruct (ready_after mask (queue m (UART_REG LSR))) as [rest|] eqn:E.
  - apply ready_after_split in E as (ws & v & Hws & Hall & Hv).
    rewrite (busy_wait_ready _ _ _ _ _ _ Hws Hall Hv) in *.
    eexists. split; [done|]. split; [apply queue_insert_eq|exact Hq].
  - apply ready_after_none in E.
    destruct (busy_wait_stuck LSR mask _ m eq_refl E) as (m' & Hrun & _).
    rewrite Hrun in *. by exists m'.
Qed.

Lemma uart_putc_cases ch m :
  match ready_after LSR_TX_IDLE (queue m (UART_REG LSR)) with
  | Some rest =>
      ∃ m', uart_putc ch m = Done () m' ∧
            queue m' (UART_REG LSR) = rest ∧ sent m m' [u8 ch]
  | None => ∃ m', uart_putc ch m = Pending m' ∧ sent m m' []
  end.
Proof.
  pose proof (busy_wait_cases LSR_TX_IDLE m) as H.
  destruct (ready_after _ _) as [rest|] eqn:E.
  - destruct (uart_putc_served ch m rest E) as (m' & Hrun & Hre).
    exists m'. split; [done|]. split; [apply Hre|].
    by eapply reaches_sent.
  - destruct H as (m' & Hrun & Hs). exists m'. split; [|done].
    unfold uart_putc, mbind, M_bind. by rewrite Hrun.
Qed.

Lemma take_bytes n (l : list Z) :
  Forall (λ c, 0 ≤ c < 256) l → map u8 (take n l) = take n l.
Proof.
  intros H. revert n. induction H as [|c l Hc _ IH]; intros [|n]; try done.
  simpl. by rewrite IH, u8_small.
Qed.

(** X3: on a null-terminated string, [uart_puts] returns exactly when the
    device ends one transmit-idle wait per character; it has then sent every
    character before the terminator, in order.  Otherwise it is still waiting
    when the answers end and has sent the first [n] characters, with [n]
    less than their number.  In both cases it has sent nothing else, received
    no byte, and left memory and the bytes still to be received alone. *)
Theorem uart_puts_sends_in_order (cs junk : list Z) (m : machine) :
  Forall (λ c, c ≠ 0) cs →
  match serve (replicate (length cs) LSR_TX_IDLE) (queue m (UART_REG LSR)) with
  | Some rest =>
      ∃ m', uart_puts (cs ++ 0 :: junk) m = Done () m' ∧
            queue m' (UART_REG LSR) = rest ∧ sent m m' (map u8 cs)
  | None =>
      ∃ m' n, uart_puts (cs ++ 0 :: junk) m = Pending m' ∧
              (n < length cs)%nat ∧ sent m m' (map u8 (take n cs))
  end.
Proof.
  revert m. induction cs as [|c cs IH]; intros m Hcs.
  - simpl. exists m. split; [done|]. split; [done|apply sent_refl].
  - inversion_clear Hcs as [|?? Hc Hcs'].
    simpl. rewrite (proj2 (Z.eqb_neq c 0) Hc).
    pose proof (uart_putc_cases c m) as H1.
    destruct (ready_after _ _) as [q1|].
    + destruct H1 as (m1 & R1 & L1 & S1).
      specialize (IH m1 Hcs'). rewrite L1 in IH.
      unfold mbind, M_bind. rewrite R1.
      destruct (serve _ q1) as [rest|].
      * destruct IH as (m' & R & L & Hs). exists m'.
        split; [done|]. split; [done|].
        exact (sent_trans _ _ _ _ _ S1 Hs).
      * destruct IH as (m' & n & R & Hn & Hs). exists m', (S n).
        split; [done|]. split; [lia|].
        exact (sent_trans _ _ _ _ _ S1 Hs).
    + destruct H1 as (m' & R & Hs). exists m', 0%nat.
      unfold mbind, M_bind. rewrite R. split; [done|]. split; [lia|done].
Qed.

(** ** Line input on any device *)

Lemma uart_getc_cases m :
  match ready_after LSR_RX_READY (queue m (UART_REG LSR)), queue m (UART_REG RHR) with
  | Some rest, k :: rx =>
      ∃ m', uart_getc m = Done (u8 k) m' ∧ reaches m m' [u8 k] [] rest rx (ram m)
  | _, _ => ∃ m', uart_getc m = Pending m' ∧ sent m m' []
  end.
Proof.
  pose proof (busy_wait_cases LSR_RX_READY m) as H.
  destruct (ready_after _ _) as [rest|] eqn:E.
  - destruct (queue m (UART_REG RHR)) as [|k rx] eqn:Erx.
    + destruct H as (m' & Hrun & _ & Hs). exists m'. split; [|done].
      unfold uart_getc, mbind, M_bind. rewrite Hrun.
      apply uart_read_reg_nil. destruct Hs as (_ & _ & ->). done.
    + by apply uart_getc_served.
  - destruct H as (m' & Hrun & Hs).
    assert (uart_getc m = Pending m')
      by (unfold uart_getc, mbind, M_bind; by rewrite Hrun).
    destruct (queue m (UART_REG RHR)); by exists m'.
Qed.

Lemma uart_puts_erase_blocked m :
  serve [LSR_TX_IDLE; LSR_TX_IDLE; LSR_TX_IDLE] (queue m (UART_REG LSR)) = None →
  ∃ m' n, uart_puts [BS; SP; BS; NUL] m = Pending m' ∧
          (n < 3)%nat ∧ sent m m' (take n [BS; SP; BS]).
Proof.
  simpl. intros H. unfold mbind, M_bind.
  pose proof (uart_putc_cases BS m) as H1.
  destruct (ready_after _ (queue m _)) as [q1|].
  - destruct H1 as (m1 & R1 & L1 & S1). rewrite R1.
    pose proof (uart_putc_cases SP m1) as H2. rewrite L1 in H2.
    destruct (ready_after _ q1) as [q2|].
    + destruct H2 as (m2 & R2 & L2 & S2). rewrite R2.
      pose proof (uart_putc_cases BS m2) as H3. rewrite L2 in H3.
      destruct (ready_after _ q2) as [q3|]; [done|].
      destruct H3 as (m3 & R3 & S3). rewrite R3.
      exists m3, 2%nat. split; [done|]. split; [lia|].
      exact (sent_trans _ _ _ _ _ (sent_trans _ _ _ _ _ S1 S2) S3).
    + destruct H2 as (m2 & R2 & S2). rewrite R2.
      exists m2, 1%nat. split; [done|]. split; [lia|].
      exact (sent_trans _ _ _ _ _ S1 S2).
  - destruct H1 as (m1 & R1 & S1). rewrite R1.
    exists m1, 0%nat. split; [done|]. split; [lia|done].
Qed.

(** The branch taken for the key [k] when the device does not end all the
    waits of its echo: the call is cut with a strict prefix of the echo sent
    and memory untouched. *)
Lemma gets_branch_blocked s acc k m :
  0 ≤ k < 256 →
  serve (replicate (length (key_echo acc k)) LSR_TX_IDLE)
        (queue m (UART_REG LSR)) = None →
  ∃ m' n,
    gets_branch s (s + Z.of_nat (length acc)) k m = Pending m' ∧
    (n < length (key_echo acc k))%nat ∧
    sent m m' (take n (key_echo acc k)).
Proof.
  intros Hk H. unfold gets_branch, key_echo in *.
  destruct (k =? CR) eqn:Ecr.
  - simpl in H. unfold mbind, M_bind.
    pose proof (uart_putc_cases CR m) as H1.
    destruct (ready_after _ (queue m _)) as [q1|].
    + destruct H1 as (m1 & R1 & L1 & S1). rewrite R1.
      pose proof (uart_putc_cases LF m1) as H2. rewrite L1 in H2.
      destruct (ready_after _ q1) as [q2|]; [done|].
      destruct H2 as (m2 & R2 & S2). rewrite R2.
      exists m2, 1%nat. split; [done|]. split; [simpl; lia|].
      exact (sent_trans _ _ _ _ _ S1 S2).
    + destruct H1 as (m1 & R1 & S1). rewrite R1.
      exists m1, 0%nat. split; [done|]. split; [simpl; lia|done].
  - destruct (erases k) eqn:Eer; unfold erases in Eer; rewrite Eer.
    + destruct acc as [|c acc']; [done|].
      replace (s + Z.of_nat (length (c :: acc')) >? s) with true
        by (rewrite Z.gtb_ltb; symmetry; apply Z.ltb_lt; simpl; lia).
      destruct (uart_puts_erase_blocked m H) as (m' & n & R & Hn & Hs).
      unfold mbind, M_bind. rewrite R. by exists m', n.
    + simpl in H. unfold mbind, M_bind.
      pose proof (uart_putc_cases k m) as H1.
      destruct (ready_after _ (queue m _)) as [q1|]; [done|].
      destruct H1 as (m1 & R1 & S1). rewrite R1.
      exists m1, 0%nat. split; [done|]. split; [simpl; lia|done].
Qed.

Lemma serve_cons k ks q :
  serve (k :: ks) q =
    match ready_after k q with Some q' => serve ks q' | None => None end.
Proof. reflexivity. Qed.

(** One iteration, on any device whose data answers are bytes. *)
Lemma gets_iter_cases s acc m :
  Forall (λ k, 0 ≤ k < 256) (queue m (UART_REG RHR)) →
  match queue m (UART_REG RHR) with
  | [] =>
      ∃ m', gets_iter s (s + Z.of_nat (length acc)) m = Pending m' ∧ sent m m' []
  | k :: rx =>
      match serve (LSR_RX_READY :: replicate (length (key_echo acc k)) LSR_TX_IDLE)
                  (queue m (UART_REG LSR)) with
      | Some rest =>
          ∃ m', gets_iter s (s + Z.of_nat (length acc)) m = Done (key_flow s acc k) m' ∧
                reaches m m' [k] (key_echo acc k) rest rx (key_ram s acc k (ram m))
      | None =>
          ∃ m' rxs n,
            gets_iter s (s + Z.of_nat (length acc)) m = Pending m' ∧
            transfers m m' rxs (take n (key_echo acc k)) ∧
            (rxs = [] ∧ n = 0%nat ∨ rxs = [k] ∧ (n < length (key_echo acc k))%nat) ∧
            ram m' = ram m
      end
  end.
Proof.
  intros Hb. pose proof (uart_getc_cases m) as Hg.
  destruct (queue m (UART_REG RHR)) as [|k rx] eqn:Erx.
  - assert (∃ m', uart_getc m = Pending m' ∧ sent m m' []) as (m' & R & Hs)
      by (by destruct (ready_after _ _)).
    exists m'. split; [|done]. unfold gets_iter, mbind, M_bind. by rewrite R.
  - inversion_clear Hb as [|?? Hk _].
    destruct (serve (LSR_RX_READY :: _) _) as [rest|] eqn:E.
    + apply (gets_iter_key s acc k rx m rest Erx Hk E).
    + rewrite serve_cons in E.
      destruct (ready_after _ _) as [q1|].
      * destruct Hg as (m1 & R1 & S1). rewrite (u8_small k Hk) in R1, S1.
        pose proof S1 as (T1 & L1 & _ & M1). rewrite <- L1 in E.
        destruct (gets_branch_blocked s acc k m1 Hk E) as (m' & n & R & Hn & T2 & M2 & _).
        exists m', [k], n. unfold gets_iter, mbind, M_bind. rewrite R1.
        split; [done|]. split; [|split; [by right|congruence]].
        exact (transfers_trans _ _ _ _ _ _ _ T1 T2).
      * destruct Hg as (m' & R & T & M1 & _). exists m', [], 0%nat.
        unfold gets_iter, mbind, M_bind. rewrite R.
        split; [done|]. split; [|split; [by left|done]].
        by rewrite take_0.
Qed.

Lemma key_line_length acc k : (length (key_line acc k) ≤ length acc + 1)%nat.
Proof.
  unfold key_line. destruct (k =? CR); [lia|]. destruct (erases k).
  - destruct (decide (acc = [])) as [->|Hne]; [simpl; lia|].
    pose proof (length_removelast_Z acc Hne). lia.
  - rewrite length_app. simpl. lia.
Qed.

Lemma echo_of_snoc keys : ∀ acc k,
  echo_of acc (keys ++ [k]) = echo_of acc keys ++ key_echo (line_of acc keys) k.
Proof.
  induction keys as [|c keys IH]; intros acc k; simpl.
  - by rewrite (right_id_L [] (++)).
  - rewrite IH. by rewrite (assoc_L (++)).
Qed.

(** The whole loop, on any device whose data answers are bytes, started
    with the line [acc] in the buffer. *)
Lemma gets_while_any s : ∀ rxq acc m,
  queue m (UART_REG RHR) = rxq →
  Forall (λ k, 0 ≤ k < 256) rxq →
  holds (ram m) s acc →
  ∃ keys txs,
    transfers m (final (gets_while s (s + Z.of_nat (length acc)) m)) keys txs ∧
    keys `prefix_of` rxq ∧
    txs `prefix_of` echo_of acc keys ∧
    (∀ a, a < s ∨ s + Z.of_nat (length acc) + Z.of_nat (length keys) ≤ a →
       ram (final (gets_while s (s + Z.of_nat (length acc)) m)) !! a = ram m !! a) ∧
    ∀ t' m', gets_while s (s + Z.of_nat (length acc)) m = Done t' m' →
      ∃ line,
        keys = line ++ [CR] ∧
        Forall (λ k, k ≠ CR) line ∧
        t' = s + Z.of_nat (length (line_of acc line)) ∧
        txs = echo_of acc keys ∧
        holds (ram m') s (line_of acc line ++ [NUL]) ∧
        serve (waits_of acc keys) (queue m (UART_REG LSR))
          = Some (queue m' (UART_REG LSR)) ∧
        rxq = keys ++ queue m' (UART_REG RHR).
Proof.
  induction rxq as [|k rx IH]; intros acc m Hrx Hb Hacc;
    rewrite gets_while_unfold; unfold mbind, M_bind;
    pose proof (gets_iter_cases s acc m) as Hit; rewrite Hrx in Hit;
    specialize (Hit Hb).
  - destruct Hit as (m' & -> & T & M1 & _). exists [], []. simpl.
    split; [done|]. split; [done|]. split; [done|]. split; [|done].
    intros a _. by rewrite M1.
  - inversion_clear Hb as [|?? Hk Hb'].
    destruct (serve (LSR_RX_READY :: _) _) as [q1|] eqn:E.
    + destruct Hit as (m1 & -> & T1 & L1 & X1 & M1). unfold key_flow.
      destruct (k =? CR) eqn:Ecr.
      * apply Z.eqb_eq in Ecr as ->. simpl.
        exists [CR], [CR; LF]. split; [exact T1|].
        split; [by apply prefix_cons, prefix_nil|]. split; [done|].
        split.
        { intros a Ha. rewrite M1. unfold key_ram. simpl.
          rewrite lookup_insert_ne; [done|]. simpl in Ha. lia. }
        intros t' m' H. injection H as <- <-. exists [].
        split; [done|]. split; [done|]. split; [done|]. split; [done|].
        split; [rewrite M1; by apply holds_snoc|].
        split; [|by rewrite X1].
        change (waits_of acc [CR])
          with ((LSR_RX_READY :: replicate (length (key_echo acc CR)) LSR_TX_IDLE)
                  ++ []).
        by rewrite (right_id_L [] (++)), E, L1.
      * assert (Hcr : k ≠ CR) by (by apply Z.eqb_neq).
        pose proof (holds_key_line (ram m) s acc k Hcr Hacc) as Hacc1.
        fold (key_ram s acc k (ram m)) in Hacc1. rewrite <- M1 in Hacc1.
        destruct (IH (key_line acc k) m1 X1 Hb' Hacc1)
          as (keys & txs & T2 & Hp & Hq & Hfoot & Hdone).
        exists (k :: keys), (key_echo acc k ++ txs).
        split; [exact (transfers_trans _ _ _ _ _ _ _ T1 T2)|].
        split; [by apply prefix_cons|]. split; [by apply prefix_app|].
        split.
        { intros a Ha. pose proof (key_line_length acc k) as Hlen.
          rewrite Hfoot by (simpl in Ha; lia).
          rewrite M1. unfold key_ram. rewrite Ecr.
          destruct (erases k); [done|].
          rewrite lookup_insert_ne; [done|]. simpl in Ha. lia. }
        intros t' m' H.
        destruct (Hdone t' m' H) as (line & -> & Hline & -> & -> & Hh & Hs & ->).
        exists (k :: line). split; [done|]. split; [by constructor|].
        split; [done|]. split; [done|]. split; [done|]. split; [|done].
        change (waits_of acc (k :: line ++ [CR]))
          with ((LSR_RX_READY :: replicate (length (key_echo acc k)) LSR_TX_IDLE)
                  ++ waits_of (key_line acc k) (line ++ [CR])).
        by rewrite serve_app, E, <- L1.
    + destruct Hit as (m' & rxs & n & -> & T & Hcase & M1). simpl.
      exists rxs, (take n (key_echo acc k)). split; [exact T|].
      split; [|split; [|split; [|done]]].
      * destruct Hcase as [[-> _]|[-> _]];
          [apply prefix_nil|apply prefix_cons, prefix_nil].
      * destruct Hcase as [[-> ->]|[-> _]]; [apply prefix_nil|].
        simpl. rewrite (right_id_L [] (++)). apply prefix_take.
      * intros a _. by rewrite M1.
Qed.

Lemma echo_of_line_cr acc line :
  echo_of acc (line ++ [CR]) = echo_of acc line ++ [CR; LF].
Proof. by rewrite echo_of_snoc. Qed.

(** X4: on any device, if [uart_gets] returns then the bytes it received
    are a line without carriage return followed by one carriage return, they
    are the first bytes the device had to deliver, and everything else
    follows from that line: the bytes sent are its echo followed by '\r'
    '\n', the buffer starts with the edited line and a null terminator, and
    the value returned is the length of the edited line converted to
    [uint64_t]. *)
Theorem uart_gets_result (s r : Z) (m m' : machine) :
  Forall (λ k, 0 ≤ k < 256) (queue m (UART_REG RHR)) →
  uart_gets s m = Done r m' →
  ∃ line tr,
    trace m' = trace m ++ tr ∧
    loads_at (UART_REG RHR) tr = line ++ [CR] ∧
    Forall (λ k, k ≠ CR) line ∧
    queue m (UART_REG RHR) = line ++ CR :: queue m' (UART_REG RHR) ∧
    stores_at (UART_REG THR) tr = echo_of [] line ++ [CR; LF] ∧
    r = u64 (Z.of_nat (length (line_of [] line))) ∧
    holds (ram m') s (line_of [] line ++ [NUL]).
Proof.
  intros Hb H. apply bind_done in H as (t & m1 & Hw & H). injection H as <- <-.
  destruct (gets_while_any s _ [] m eq_refl Hb)
    as (keys & txs & (tr & Htr & Hl & Hs) & _ & _ & _ & Hdone); [done|].
  simpl in *. rewrite Z.add_0_r in *. rewrite Hw in Htr. simpl in Htr.
  destruct (Hdone t m1 Hw) as (line & -> & Hline & -> & -> & Hh & _ & Hq).
  exists line, tr. split; [done|]. split; [done|]. split; [done|].
  split; [by rewrite Hq, <- (assoc_L (++))|].
  split; [by rewrite Hs, echo_of_line_cr|]. split; [|done].
  f_equal. lia.
Qed.

(** X5: on any device and whether [uart_gets] returns or not, the bytes it
    has received are the first bytes the device had to deliver, in order,
    and the bytes it has sent are a prefix of the echo of the bytes received:
    it never sends a byte that is not the echo of a key, and never echoes a
    key before the echo of the previous one is complete. *)
Theorem uart_gets_echo_follows_input (s : Z) (m : machine) :
  Forall (λ k, 0 ≤ k < 256) (queue m (UART_REG RHR)) →
  ∃ tr,
    trace (final (uart_gets s m)) = trace m ++ tr ∧
    loads_at (UART_REG RHR) tr `prefix_of` queue m (UART_REG RHR) ∧
    stores_at (UART_REG THR) tr `prefix_of` echo_of [] (loads_at (UART_REG RHR) tr).
Proof.
  intros Hb.
  destruct (gets_while_any s _ [] m eq_refl Hb)
    as (keys & txs & (tr & Htr & <- & <-) & Hp & Hq & _); [done|].
  simpl in *. rewrite Z.add_0_r in *. exists tr. split; [|done].
  unfold uart_gets, mbind, M_bind.
  by destruct (gets_while s s m).
Qed.

(** X6: when the bytes to be received are a line without carriage return
    followed by a carriage return, [uart_gets] returns if and only if the
    device ends every wait of the run: receive-ready before each key,
    transmit-idle before each echoed byte. *)
Theorem uart_gets_returns_iff_served (s : Z) (line rest : list Z) (m : machine) :
  queue m (UART_REG RHR) = line ++ CR :: rest →
  Forall (λ k, 0 ≤ k < 256 ∧ k ≠ CR) line →
  Forall (λ k, 0 ≤ k < 256) rest →
  (∃ r m', uart_gets s m = Done r m') ↔
  is_Some (serve (waits_of [] (line ++ [CR])) (queue m (UART_REG LSR))).
Proof.
  intros Hrx Hline Hrest. split.
  - intros (r & m' & H).
    assert (Hb : Forall (λ k, 0 ≤ k < 256) (queue m (UART_REG RHR))).
    { rewrite Hrx. apply Forall_app. split.
      - eapply Forall_impl; [exact Hline|]. by intros k [? _].
      - constructor; [done|exact Hrest]. }
    apply bind_done in H as (t & m1 & Hw & _).
    destruct (gets_while_any s _ [] m eq_refl Hb)
      as (keys & txs & _ & _ & _ & _ & Hdone); [done|].
    simpl in Hdone. rewrite Z.add_0_r in Hdone.
    destruct (Hdone t m1 Hw) as (line' & -> & Hline' & _ & _ & _ & Hs & Hq).
    rewrite Hrx, <- (assoc_L (++)) in Hq. simpl in Hq.
    apply not_elem_of_app_cons_inv_l in Hq as (-> & _ & _).
    + by rewrite Hs.
    + intros Hin. rewrite Forall_forall in Hline'. by apply (Hline' CR).
    + intros Hin. rewrite Forall_forall in Hline. by apply (Hline CR).
  - intros [lsr' Hs].
    destruct (gets_while_line s line [] m rest lsr' Hrx Hline Hs)
      as (m' & r & Hw & _); [done|].
    simpl in Hw. rewrite Z.add_0_r in Hw.
    eexists _, m'. unfold uart_gets, mbind, M_bind. by rewrite Hw.
Qed.


Lemma line_of_erased es : ∀ acc,
  Forall (λ k, erases k = true) es →
  (length acc ≤ length es)%nat →
  line_of acc es = [].
Proof.
  induction es as [|e es IH]; intros acc Hes Hlen.
  - destruct acc; [done|simpl in Hlen; lia].
  - inversion_clear Hes as [|?? He Hes']. simpl. apply IH; [done|].
    unfold key_line. rewrite He.
    replace (e =? CR) with false.
    + destruct (decide (acc = [])) as [->|Hne]; [simpl; lia|].
      pose proof (length_removelast_Z acc Hne). simpl in Hlen. lia.
    + symmetry. apply Z.eqb_neq. intros ->. done.
Qed.

(** X8: erasing keys in excess do not underflow.  When a line is followed
    by at least as many backspaces or DELs as the edited line has characters,
    then a carriage return, and the device ends every wait, [uart_gets]
    returns 0 and the first byte of the buffer is the null terminator. *)
Theorem uart_gets_erased_line (s : Z) (line es rest lsr' : list Z) (m : machine) :
  queue m (UART_REG RHR) = (line ++ es) ++ CR :: rest →
  Forall (λ k, 0 ≤ k < 256 ∧ k ≠ CR) line →
  Forall (λ k, k = BS ∨ k = DEL) es →
  (length (line_of [] line) ≤ length es)%nat →
  serve (waits_of [] ((line ++ es) ++ [CR])) (queue m (UART_REG LSR)) = Some lsr' →
  ∃ m', uart_gets s m = Done 0 m' ∧ ram m' !! s = Some NUL.
Proof.
  intros Hrx Hline Hes Hlen Hserve.
  assert (Hempty : line_of [] (line ++ es) = []).
  { unfold line_of. rewrite fold_left_app. apply line_of_erased; [|done].
    eapply Forall_impl; [exact Hes|]. by intros k [-> | ->]. }
  destruct (uart_gets_line s (line ++ es) m rest lsr' Hrx)
    as (m' & r & Hret & (_ & _ & _ & <-) & Hh & _).
  - apply Forall_app. split; [done|].
    eapply Forall_impl; [exact Hes|]. by intros k [-> | ->].
  - done.
  - by rewrite Hempty.
  - rewrite Hempty in *. exists m'. split; [exact Hret|].
    specialize (Hh 0%nat NUL eq_refl). by rewrite Z.add_0_r in Hh.
Qed.

End Driver.

(** ** The driver on the console *)

Lemma uart_init_on_console :
  ∃ m', uart_init virt_uart0 (console [] []) = Done () m' ∧
        trace m' =
          [ Store 268435457 0; Load 268435459 0; Store 268435459 128;
            Store 268435456 3; Store 268435457 0; Store 268435459 3;
            Load 268435457 0; Store 268435457 1 ].
Proof.
  destruct (uart_init_sequence virt_uart0 (console [] []) 0 0 [] [])
    as (m' & H & Htr & _); [reflexivity..|].
  exists m'. split; [exact H|exact Htr].
Defined.

Lemma uart_putc_on_console :
  ∃ m', uart_putc virt_uart0 65 (console [0; 64; 96; 0] []) = Done () m' ∧
        trace m' =
          [ Load 268435461 0; Load 268435461 64; Load 268435461 96;
            Store 268435456 65 ] ∧
        queue m' 268435461 = [0].
Proof.
  destruct (uart_putc_waits_for_tx_idle virt_uart0 65 (console [0; 64; 96; 0] []))
    as [H _].
  destruct (H [0; 64] 96 [0]) as (m' & Hrun & Htr & Hq & _);
    [reflexivity|repeat constructor|reflexivity|].
  exists m'. split; [exact Hrun|]. split; [exact Htr|exact Hq].
Defined.

Lemma uart_getc_on_console :
  ∃ m', uart_getc virt_uart0 (console [96; 32; 97] [72; 105]) = Done 72 m' ∧
        trace m' =
          [ Load 268435461 96; Load 268435461 32; Load 268435461 97;
            Load 268435456 72 ] ∧
        queue m' 268435456 = [105].
Proof.
  destruct (uart_getc_waits_for_rx_ready virt_uart0 (console [96; 32; 97] [72; 105]))
    as [H _].
  destruct (H [96; 32] 97 [] 72 [105]) as (m' & Hrun & Htr & _ & Hq & _);
    [reflexivity|repeat constructor|reflexivity|reflexivity|].
  exists m'. split; [exact Hrun|]. split; [exact Htr|exact Hq].
Defined.

Lemma uart_puts_AB_on_console :
  uart_puts virt_uart0 [65; 66; 0] (console [96; 96] [])
  = put_each virt_uart0 [65; 66] (console [96; 96] []).
Proof.
  apply (uart_puts_is_put_each virt_uart0 [65; 66] [] (console [96; 96] [])).
  repeat constructor; discriminate.
Defined.

Lemma uart_gets_Hi_on_console :
  ∃ m' tr,
    uart_gets virt_uart0 4096 (console [0; 1; 0; 32; 33; 32; 1; 96; 96] [72; 105; 13])
      = Done 2 m' ∧
    trace m' = tr ∧
    loads_at 268435456 tr = [72; 105; 13] ∧
    stores_at 268435456 tr = [72; 105; 13; 10] ∧
    holds (ram m') 4096 [72; 105; 0].
Proof.
  destruct (uart_gets_reads_a_line virt_uart0 4096 [72; 105] [] []
              (console [0; 1; 0; 32; 33; 32; 1; 96; 96] [72; 105; 13]))
    as (m' & tr & Hrun & Htr & Hl & Hs & _ & Hh & _).
  - reflexivity.
  - repeat constructor; (lia || discriminate).
  - reflexivity.
  - reflexivity.
  - exists m', tr. split; [exact Hrun|]. split; [exact Htr|].
    split; [exact Hl|]. split; [exact Hs|exact Hh].
Defined.

Lemma del_is_backspace_on_console :
  observe virt_uart0
      (uart_gets virt_uart0 4096 (retype virt_uart0 (console (replicate 9 97) [65; 127; 13])))
    = observe virt_uart0
        (uart_gets virt_uart0 4096 (console (replicate 9 97) [65; 127; 13])) ∧
  (∃ m' tr,
     uart_gets virt_uart0 4096 (console (replicate 9 97) [65; 127; 13]) = Done 0 m' ∧
     trace m' = tr ∧
     stores_at 268435456 tr = [65; 8; 32; 8; 13; 10] ∧
     holds (ram m') 4096 [0]) ∧
  (∃ m' tr,
     uart_gets virt_uart0 4096 (console (replicate 6 97) [8; 65; 13]) = Done 1 m' ∧
     trace m' = tr ∧
     stores_at 268435456 tr = [65; 13; 10] ∧
     holds (ram m') 4096 [65; 0]) ∧
  gets_branch virt_uart0 4096 4096 8 (console [] []) = Done (Continue 4096) (console [] []).
Proof.
  split; [|split; [|split]].
  - apply (del_is_backspace virt_uart0 4096 4096).
  - destruct (del_is_backspace virt_uart0 4096 4096 (console (replicate 9 97) [65; 127; 13]))
      as (_ & _ & _ & _ & H).
    destruct (H [65] 127 [] [] []) as (m' & tr & Hrun & Htr & _ & Hs & Hh).
    + by right.
    + reflexivity.
    + repeat constructor; (lia || discriminate).
    + constructor.
    + reflexivity.
    + reflexivity.
    + exists m', tr. split; [exact Hrun|]. split; [exact Htr|].
      split; [exact Hs|exact Hh].
  - destruct (del_is_backspace virt_uart0 4096 4096 (console (replicate 6 97) [8; 65; 13]))
      as (_ & _ & _ & _ & H).
    destruct (H [] 8 [65] [] []) as (m' & tr & Hrun & Htr & _ & Hs & Hh).
    + by left.
    + reflexivity.
    + constructor.
    + repeat constructor; (lia || discriminate).
    + reflexivity.
    + reflexivity.
    + exists m', tr. split; [exact Hrun|]. split; [exact Htr|].
      split; [exact Hs|exact Hh].
  - apply (del_is_backspace virt_uart0 4096 4096 (console [] [])). lia.
Defined.

Lemma latch_closed_on_console :
  ∃ tr1 tr2,
    lcr_after virt_uart0 tr1 255 = 3 ∧
    stores_at 268435459 tr2 = [] ∧
    ∀ p q, tr2 = p ++ q → DLAB (lcr_after virt_uart0 (tr1 ++ p) 255) = false.
Proof.
  destruct (latch_closed_after_init virt_uart0
              (console [96; 97; 96] [72; 13])
              (final (uart_init virt_uart0 (console [96; 97; 96] [72; 13])))
              255 [Putc 62; Gets 4096; Getc])
    as (tr1 & tr2 & _ & Hlcr & _ & _ & Hs & Hall); [reflexivity|].
  exists tr1, tr2. split; [exact Hlcr|]. split; [exact Hs|].
  intros p q Hpq. exact (proj2 (Hall p q Hpq)).
Defined.


Lemma nul_on_console :
  ∃ r m',
    uart_gets virt_uart0 4096 (console (replicate 7 97) [0; 65; 13]) = Done r m' ∧
    ram m' !! 4096 = Some 0 ∧
    0 < r.
Proof.
  destruct (nul_is_stored virt_uart0 4096 4096 (console (replicate 7 97) [0; 65; 13]))
    as (_ & H).
  apply (H [0; 65] [] [] 0%nat).
  - reflexivity.
  - repeat constructor; (lia || discriminate).
  - reflexivity.
  - reflexivity.
  - reflexivity.
Defined.

Lemma cursor_on_console :
  ∃ tr,
    trace (final (gets_steps virt_uart0 3 4096 4096
                    (console (replicate 8 97) [72; 8; 8; 105; 13]))) = tr ∧
    loads_at 268435456 tr = [72; 8; 8] ∧
    stored_count [72; 8; 8] = 1%nat ∧
    erased_count [] [72; 8; 8] = 1%nat.
Proof.
  destruct (cursor_never_below_start virt_uart0 4096 3
              (console (replicate 8 97) [72; 8; 8; 105; 13])) as (_ & H & _).
  destruct (H (Continue 4096)
              (final (gets_steps virt_uart0 3 4096 4096
                        (console (replicate 8 97) [72; 8; 8; 105; 13]))) eq_refl)
    as (tr & Htr & _).
  exists tr. split; [exact Htr|].
  assert (Hl : loads_at 268435456 tr = [72; 8; 8]).
  { apply (f_equal (loads_at 268435456)) in Htr. exact (eq_sym Htr). }
  split; [exact Hl|]. split; reflexivity.
Defined.

(** Backspace on an empty line, then a character: the line is that
    character. *)
Example backspace_at_start :
  observe virt_uart0 (uart_gets virt_uart0 4096 (console (replicate 6 97) [8; 65; 13]))
  = (Some 1, <[4097 := 0]> (<[4096 := 65]> ∅), [65; 13; 10]).
Proof. vm_compute. reflexivity. Qed.

(** Backspace after two characters: the second is erased on the terminal
    and overwritten by the terminator in the buffer. *)
Example backspace_removes_last :
  observe virt_uart0 (uart_gets virt_uart0 4096 (console (replicate 11 97) [65; 66; 8; 13]))
  = (Some 1, <[4097 := 0]> (<[4096 := 65]> ∅), [65; 66; 8; 32; 8; 13; 10]).
Proof. vm_compute. reflexivity. Qed.

(** Without a carriage return the call is still waiting when the input
    ends; what was typed has been echoed and stored. *)
Example no_carriage_return :
  observe virt_uart0 (uart_gets virt_uart0 4096 (console (replicate 9 97) [72; 105]))
  = (None, <[4097 := 105]> (<[4096 := 72]> ∅), [72; 105]).
Proof. vm_compute. reflexivity. Qed.

Lemma uart_init_window_on_console :
  ∃ m1 tr,
    uart_init virt_uart0
      (Machine (<[268435459 := [0]]> (<[268435457 := [254]]> ∅)) [] ∅) = Done () m1 ∧
    trace m1 = tr ∧
    loads_at 268435457 tr = [254] ∧
    ∀ w, window_after virt_uart0 tr w = Window 3 3 0 255 (w_sent w).
Proof.
  apply (uart_init_programs_window virt_uart0
           (Machine (<[268435459 := [0]]> (<[268435457 := [254]]> ∅)) [] ∅)
           0 254 [] []); reflexivity.
Defined.

Lemma transfers_reach_the_line_on_console :
  ∃ m1 tr1 tr2,
    uart_init virt_uart0 (console [96; 97; 96] [72; 13]) = Done () m1 ∧
    trace m1 = tr1 ∧
    loads_at 268435457 tr1 = [0] ∧
    trace (final (run_calls virt_uart0 [Putc 62; Getc] m1)) = trace m1 ++ tr2 ∧
    ∀ w,
      window_after virt_uart0 tr1 w = Window 3 3 0 1 (w_sent w) ∧
      window_after virt_uart0 (tr1 ++ tr2) w =
        Window 3 3 0 1 (w_sent w ++ stores_at 268435456 tr2).
Proof.
  apply (transfers_after_init_reach_the_line virt_uart0
           (console [96; 97; 96] [72; 13]) 0 0 [] [] [Putc 62; Getc]); reflexivity.
Defined.

Lemma uart_puts_cut_on_console :
  ∃ m' n,
    uart_puts virt_uart0 [72; 105; 0] (console [64; 96; 0] [65]) = Pending m' ∧
    (n < 2)%nat ∧
    sent virt_uart0 (console [64; 96; 0] [65]) m' (map u8 (take n [72; 105])).
Proof.
  apply (uart_puts_sends_in_order virt_uart0 [72; 105] [] (console [64; 96; 0] [65])).
  repeat constructor; discriminate.
Defined.

Lemma uart_gets_result_on_console :
  ∃ line tr,
    loads_at 268435456 tr = line ++ [13] ∧
    Forall (λ k, k ≠ 13) line ∧
    stores_at 268435456 tr = echo_of [] line ++ [13; 10] ∧
    2 = u64 (Z.of_nat (length (line_of [] line))).
Proof.
  destruct (uart_gets_result virt_uart0 4096 2
              (console (replicate 9 97) [72; 105; 13; 65])
              (final (uart_gets virt_uart0 4096
                        (console (replicate 9 97) [72; 105; 13; 65]))))
    as (line & tr & _ & Hl & Hline & _ & Hs & Hr & _).
  - repeat constructor; lia.
  - vm_compute. reflexivity.
  - exists line, tr. split; [exact Hl|]. split; [exact Hline|].
    split; [exact Hs|exact Hr].
Defined.

Lemma uart_gets_echo_on_console :
  ∃ tr,
    trace (final (uart_gets virt_uart0 4096 (console [97; 96; 1; 0] [72; 105; 13]))) = tr ∧
    loads_at 268435456 tr `prefix_of` [72; 105; 13] ∧
    stores_at 268435456 tr `prefix_of` echo_of [] (loads_at 268435456 tr).
Proof.
  apply (uart_gets_echo_follows_input virt_uart0 4096 (console [97; 96; 1; 0] [72; 105; 13])).
  repeat constructor; lia.
Defined.

Lemma uart_gets_blocks_on_console :
  ¬ ∃ r m', uart_gets virt_uart0 4096 (console (replicate 6 97) [72; 105; 13]) = Done r m'.
Proof.
  intros H.
  apply (uart_gets_returns_iff_served virt_uart0 4096 [72; 105] []
           (console (replicate 6 97) [72; 105; 13])) in H.
  - destruct H as [q H]. discriminate H.
  - reflexivity.
  - repeat constructor; (lia || discriminate).
  - constructor.
Defined.


Lemma uart_gets_erased_on_console :
  ∃ m',
    uart_gets virt_uart0 4096 (console (replicate 16 97) [72; 105; 8; 127; 8; 13]) = Done 0 m' ∧
    ram m' !! 4096 = Some 0.
Proof.
  apply (uart_gets_erased_line virt_uart0 4096 [72; 105] [8; 127; 8] [] []
           (console (replicate 16 97) [72; 105; 8; 127; 8; 13])).
  - reflexivity.
  - repeat constructor; (lia || discriminate).
  - repeat constructor; (by left) || (by right).
  - simpl. lia.
  - reflexivity.
Defined.
